(** * repo_map_generator.py: a shallow embedding and its verified properties

    The embedding follows [src/repo_map_generator.py] function by function.
    Python [str] values are sequences of Unicode code points; a file is the
    text Python reads from it.  Library calls ([re], [fnmatch], [hashlib],
    [pathlib], [open]) are modelled after their documented behaviour on a
    POSIX host. *)

From Stdlib Require Import NArith ZArith List String Ascii Bool Arith Lia.
Import ListNotations.

Set Implicit Arguments.

(** ** Strings *)

Module Str.

(** A character is a code point; a [str] is what Python calls [str]. *)
Definition char := N.
Definition str := list char.

(** An ASCII literal of the source, as a [str]. *)
Definition lit (s : string) : str := map N_of_ascii (list_ascii_of_string s).

Definition NL : char := 10%N.
Definition CR : char := 13%N.
Definition BACKSLASH : char := 92%N.
Definition DOT : char := 46%N.
Definition SLASH : char := 47%N.
Definition SPACE : char := 32%N.

Fixpoint eqb (a b : str) : bool :=
  match a, b with
  | [], [] => true
  | x :: a', y :: b' => N.eqb x y && eqb a' b'
  | _, _ => false
  end.

(** [s.startswith(p)] *)
Fixpoint startswith (s p : str) : bool :=
  match p with
  | [] => true
  | y :: p' =>
      match s with
      | [] => false
      | x :: s' => N.eqb x y && startswith s' p'
      end
  end.

(** [needle in hay] *)
Fixpoint contains (hay needle : str) : bool :=
  startswith hay needle ||
  match hay with
  | [] => false
  | _ :: hay' => contains hay' needle
  end.

(** [s.split(sep)] for a one-character separator: always at least one piece. *)
Fixpoint split_on (sep : char) (s : str) : list str :=
  match s with
  | [] => [[]]
  | c :: s' =>
      match split_on sep s' with
      | [] => [[c]]
      | piece :: pieces =>
          if N.eqb c sep then [] :: piece :: pieces else (c :: piece) :: pieces
      end
  end.

(** [sep.join(pieces)] *)
Fixpoint join (sep : str) (pieces : list str) : str :=
  match pieces with
  | [] => []
  | [p] => p
  | p :: rest => p ++ sep ++ join sep rest
  end.

(** [s * n] *)
Fixpoint times (s : str) (n : nat) : str :=
  match n with
  | O => []
  | S n' => s ++ times s n'
  end.

(** [str.lower] on the ASCII range, which holds every exclusion pattern of
    the program; code points outside [A-Z] are left as they are. *)
Definition lower_char (c : char) : char :=
  if (65 <=? c)%N && (c <=? 90)%N then (c + 32)%N else c.
Definition lower (s : str) : str := map lower_char s.

(** [s.lstrip('.')] *)
Fixpoint lstrip_dots (s : str) : str :=
  match s with
  | c :: s' => if N.eqb c DOT then lstrip_dots s' else s
  | [] => []
  end.

(** [s.rfind('.')]: the index of the last dot. *)
Fixpoint rfind_dot (s : str) : option nat :=
  match s with
  | [] => None
  | c :: s' =>
      match rfind_dot s' with
      | Some i => Some (S i)
      | None => if N.eqb c DOT then Some O else None
      end
  end.

(** Universal newlines, as text-mode [read] applies them: ["\r\n"] and a lone
    ["\r"] both become ["\n"]. *)
Fixpoint universal_newlines (s : str) : str :=
  match s with
  | [] => []
  | c :: s' =>
      if N.eqb c CR then
        match s' with
        | d :: s'' => if N.eqb d NL then NL :: universal_newlines s''
                      else NL :: universal_newlines s'
        | [] => [NL]
        end
      else c :: universal_newlines s'
  end.

(** A lone surrogate cannot be encoded by the strict UTF-8 codec. *)
Definition is_surrogate (c : char) : bool := (55296 <=? c)%N && (c <=? 57343)%N.
Definition utf8_encodable (s : str) : bool := forallb (fun c => negb (is_surrogate c)) s.

End Str.
Import Str.

(** ** Exceptions

    Every constructor is a subclass of Python's [Exception], so each is caught
    by an [except Exception] clause. *)

Inductive exn :=
| ValueError          (* PurePath.relative_to on a path outside the root *)
| PermissionError     (* stat, open *)
| UnicodeDecodeError  (* text read of bytes that are not UTF-8 *)
| UnicodeEncodeError  (* strict encoding of a lone surrogate *)
| TemplateError       (* re.error or IndexError raised for a replacement template *)
| IndexError          (* a list index out of range *)
| RecursionError      (* the interpreter's recursion limit *)
| OSError.            (* shutil.copy2, open on what is not a file *)

Inductive result (A : Type) :=
| Ok (a : A)
| Raise (e : exn).
Arguments Ok {A} a.
Arguments Raise {A} e.

Definition bind {A B} (r : result A) (k : A -> result B) : result B :=
  match r with
  | Ok a => k a
  | Raise e => Raise e
  end.

Notation "'try' x <- r 'in' k" := (bind r (fun x => k))
  (at level 10, x pattern, r at level 100, k at level 200).

Definition is_ok {A} (r : result A) : bool :=
  match r with Ok _ => true | Raise _ => false end.

(** ** The part of [re] the program uses *)

Module Re.

(** [\s] for a [str] pattern: Unicode white space. *)
Definition is_space (c : char) : bool :=
  ((9 <=? c) && (c <=? 13) || (28 <=? c) && (c <=? 32) ||
   (c =? 133) || (c =? 160) || (c =? 5760) ||
   (8192 <=? c) && (c <=? 8202) || (c =? 8232) || (c =? 8233) ||
   (c =? 8239) || (c =? 8287) || (c =? 12288))%N.

(** The pieces the program's pattern is made of.  [Lit c] is a character as
    [re.escape] leaves it: it matches itself and nothing else. *)
Inductive atom :=
| Lit (c : char)
| LazyAny            (* .*?  under re.DOTALL: any characters, fewest first *)
| GreedySpace        (* \s*  : white space, most first *)
| Open (g : nat)     (* the opening parenthesis of group g *)
| Close (g : nat).   (* its closing parenthesis *)

Definition pattern := list atom.

(** [re.escape(s)] *)
Definition escape (s : str) : pattern := map Lit s.

(** Where each group starts and ends, as offsets into the subject. *)
Definition spans := list (nat * (nat * nat)).

Fixpoint span_of (g : nat) (caps : spans) : option (nat * nat) :=
  match caps with
  | [] => None
  | (h, se) :: rest => if Nat.eqb h g then Some se else span_of g rest
  end.

Definition open_group (g pos : nat) (caps : spans) : spans := (g, (pos, pos)) :: caps.

Definition close_group (g pos : nat) (caps : spans) : spans :=
  match span_of g caps with
  | Some (b, _) => (g, (b, pos)) :: caps
  | None => caps
  end.

(** The backtracking matcher: [match_here p s pos caps] matches [p] against
    [s], the subject from offset [pos] on, trying the alternatives in the
    order of the engine, and gives the offset where the match ends. *)
Fixpoint match_here (p : pattern) (s : str) (pos : nat) (caps : spans)
  : option (nat * spans) :=
  match p with
  | [] => Some (pos, caps)
  | Lit c :: p' =>
      match s with
      | x :: s' => if N.eqb x c then match_here p' s' (S pos) caps else None
      | [] => None
      end
  | LazyAny :: p' =>
      (fix lazy (s : str) (pos : nat) {struct s} : option (nat * spans) :=
         match match_here p' s pos caps with
         | Some r => Some r
         | None =>
             match s with
             | [] => None
             | _ :: s' => lazy s' (S pos)
             end
         end) s pos
  | GreedySpace :: p' =>
      (fix greedy (s : str) (pos : nat) {struct s} : option (nat * spans) :=
         match s with
         | x :: s' =>
             if is_space x then
               match greedy s' (S pos) with
               | Some r => Some r
               | None => match_here p' s pos caps
               end
             else match_here p' s pos caps
         | [] => match_here p' s pos caps
         end) s pos
  | Open g :: p' => match_here p' s pos (open_group g pos caps)
  | Close g :: p' => match_here p' s pos (close_group g pos caps)
  end.

(** A match object: the span of the whole match and of each group. *)
Record match_obj := { m_start : nat; m_end : nat; m_groups : spans }.

Fixpoint search_from (p : pattern) (s : str) (pos : nat) : option match_obj :=
  match match_here p s pos [] with
  | Some (e, caps) => Some {| m_start := pos; m_end := e; m_groups := caps |}
  | None =>
      match s with
      | [] => None
      | _ :: s' => search_from p s' (S pos)
      end
  end.

(** [re.search(p, s, re.DOTALL)]: the leftmost match. *)
Definition search (p : pattern) (s : str) : option match_obj := search_from p s 0.

Definition slice (s : str) (b e : nat) : str := firstn (e - b) (skipn b s).

(** [m.group(g)] on subject [s]; group 0 is the whole match. *)
Definition group (s : str) (m : match_obj) (g : nat) : str :=
  match g with
  | O => slice s (m_start m) (m_end m)
  | _ => match span_of g (m_groups m) with
         | Some (b, e) => slice s b e
         | None => []
         end
  end.

(** The number of groups of a pattern ([pattern.groups]). *)
Fixpoint groups (p : pattern) : nat :=
  match p with
  | [] => 0
  | Open g :: p' => Nat.max g (groups p')
  | _ :: p' => groups p'
  end.

(** *** Replacement templates

    [re.subn] reads a [str] replacement as a template: a backslash starts an
    escape or a group reference.  This is [re._parser.parse_template], one
    character at a time; every error it raises ([re.error], and [IndexError]
    for an unknown group name) is [TemplateError].  The pattern has no named
    group, so the only names [\g<...>] accepts are decimal numbers. *)

Inductive titem :=
| TChar (c : char)     (* a literal character *)
| TGroup (g : nat).    (* the text of group g *)

Inductive tstate :=
| TNormal
| TEsc                     (* after a backslash *)
| TG                       (* after \g *)
| TName (acc : str)        (* inside \g<, the name so far *)
| TZero (v : N) (n : nat)  (* after \0 and n further octal digits, of value v *)
| TDig (c : char)          (* after a backslash and one digit 1..9 *)
| TDig2 (c d : char).      (* after a backslash and two octal digits *)

Definition is_digit (c : char) : bool := ((48 <=? c) && (c <=? 57))%N.
Definition is_octdigit (c : char) : bool := ((48 <=? c) && (c <=? 55))%N.
Definition is_ascii_letter (c : char) : bool :=
  ((65 <=? c) && (c <=? 90) || (97 <=? c) && (c <=? 122))%N.
Definition digit (c : char) : N := (c - 48)%N.

(** [int(name)] for a name of ASCII decimal digits. *)
Fixpoint decimal_from (acc : N) (name : str) : option N :=
  match name with
  | [] => Some acc
  | c :: name' => if is_digit c then decimal_from (acc * 10 + digit c) name' else None
  end.
Definition decimal (name : str) : option N :=
  match name with
  | [] => None
  | _ => decimal_from 0 name
  end.

(** The table [ESCAPES] of the parser. *)
Definition escape_value (c : char) : option char :=
  (if c =? 97 then Some 7        (* \a *)
   else if c =? 98 then Some 8   (* \b *)
   else if c =? 102 then Some 12 (* \f *)
   else if c =? 110 then Some 10 (* \n *)
   else if c =? 114 then Some 13 (* \r *)
   else if c =? 116 then Some 9  (* \t *)
   else if c =? 118 then Some 11 (* \v *)
   else if c =? 92 then Some 92  (* a doubled backslash *)
   else None)%N.

Definition emit (x : titem) (r : result (list titem)) : result (list titem) :=
  try items <- r in Ok (x :: items).

(** [addgroup]: a reference to a group the pattern does not have is an error. *)
Definition add_group (ngroups : nat) (index : N) (r : result (list titem))
  : result (list titem) :=
  if (index <=? N.of_nat ngroups)%N then emit (TGroup (N.to_nat index)) r
  else Raise TemplateError.

(** What the parser does with [c] outside an escape, [rest] being the parse
    of what follows [c] from a given state. *)
Definition normal (c : char) (rest : tstate -> result (list titem))
  : result (list titem) :=
  if N.eqb c BACKSLASH then rest TEsc else emit (TChar c) (rest TNormal).

Definition finish (ngroups : nat) (st : tstate) : result (list titem) :=
  match st with
  | TNormal => Ok []
  | TEsc => Raise TemplateError          (* bad escape (end of pattern) *)
  | TG => Raise TemplateError            (* missing < *)
  | TName _ => Raise TemplateError       (* missing >, unterminated name *)
  | TZero v _ => Ok [TChar (N.land v 255)]
  | TDig c => add_group ngroups (digit c) (Ok [])
  | TDig2 c d => add_group ngroups (digit c * 10 + digit d) (Ok [])
  end.

Fixpoint parse (ngroups : nat) (st : tstate) (t : str) : result (list titem) :=
  match t with
  | [] => finish ngroups st
  | c :: t' =>
      let rest := fun st' => parse ngroups st' t' in
      match st with
      | TNormal => normal c rest
      | TEsc =>
          if (c =? 103)%N then rest TG
          else if (c =? 48)%N then rest (TZero 0 0)
          else if is_digit c then rest (TDig c)
          else match escape_value c with
               | Some v => emit (TChar v) (rest TNormal)
               | None =>
                   if is_ascii_letter c then Raise TemplateError  (* bad escape *)
                   else emit (TChar BACKSLASH) (emit (TChar c) (rest TNormal))
               end
      | TG => if (c =? 60)%N then rest (TName []) else Raise TemplateError
      | TName acc =>
          if (c =? 62)%N then
            match decimal acc with
            | Some index => add_group ngroups index (rest TNormal)
            | None => Raise TemplateError   (* missing or unknown group name *)
            end
          else rest (TName (acc ++ [c]))
      | TZero v n =>
          if is_octdigit c && Nat.ltb n 2 then rest (TZero (v * 8 + digit c) (S n))
          else emit (TChar (N.land v 255)) (normal c rest)
      | TDig d1 =>
          if is_digit c then
            if is_octdigit d1 && is_octdigit c then rest (TDig2 d1 c)
            else add_group ngroups (digit d1 * 10 + digit c) (rest TNormal)
          else add_group ngroups (digit d1) (normal c rest)
      | TDig2 d1 d2 =>
          if is_octdigit c then
            let v := (digit d1 * 64 + digit d2 * 8 + digit c)%N in
            if (255 <? v)%N then Raise TemplateError   (* octal escape out of range *)
            else emit (TChar v) (rest TNormal)
          else add_group ngroups (digit d1 * 10 + digit d2) (normal c rest)
      end
  end.

Definition parse_template (p : pattern) (repl : str) : result (list titem) :=
  parse (groups p) TNormal repl.

(** [match.expand]: the literals as they are, each reference replaced by the
    text of its group. *)
Definition expand (items : list titem) (subject : str) (m : match_obj) : str :=
  flat_map (fun it => match it with
                      | TChar c => [c]
                      | TGroup g => group subject m g
                      end) items.

(** [re.subn(p, repl, subject, count=1, flags=re.DOTALL)]: the new string and
    the number of substitutions made.  The template is read before the
    subject is searched. *)
Definition subn1 (p : pattern) (repl subject : str) : result (str * nat) :=
  try items <- parse_template p repl in
  match search p subject with
  | None => Ok (subject, 0)
  | Some m =>
      Ok (firstn (m_start m) subject ++ expand items subject m
            ++ skipn (m_end m) subject, 1)
  end.

End Re.

(** ** [fnmatch.fnmatch] on a POSIX host

    [os.path.normcase] is the identity there, so [fnmatch] is [fnmatchcase]:
    the pattern is translated and must match the whole name.  The exclusion
    sets of the program use only [*] and literal characters; bracket classes
    are read as lists of characters and ranges. *)

Module Fnmatch.

Inductive gitem :=
| GStar                                          (* *  *)
| GAny                                           (* ?  *)
| GClass (neg : bool) (set : list (char * char)) (* [seq] and [!seq] *)
| GChar (c : char).

(** The members of a class body: [a-b] is a range, anything else itself. *)
Fixpoint class_items (body : str) : list (char * char) :=
  match body with
  | a :: rest =>
      match rest with
      | dash :: b :: rest' =>
          if (dash =? 45)%N then (a, b) :: class_items rest'
          else (a, a) :: class_items rest
      | _ => (a, a) :: class_items rest
      end
  | [] => []
  end.

Definition class_of (body : str) : gitem :=
  match body with
  | c :: body' => if (c =? 33)%N then GClass true (class_items body')
                  else GClass false (class_items body)
  | [] => GClass false []
  end.

(** [fnmatch.translate]: a bracket with no closing bracket stands for itself;
    a [!] and then a closing bracket right after the opening one belong to
    the class. *)
Fixpoint translate (pat : str) : list gitem :=
  match pat with
  | [] => []
  | c :: pat' =>
      if (c =? 42)%N then GStar :: translate pat'
      else if (c =? 63)%N then GAny :: translate pat'
      else if (c =? 91)%N then
        match
          (fix scan (q : str) (phase : nat) (body : str) {struct q}
             : option (list gitem) :=
             match q with
             | [] => None
             | x :: q' =>
                 match phase with
                 | 0 => if (x =? 33)%N then scan q' 1 (body ++ [x])
                        else scan q' 2 (body ++ [x])
                 | 1 => scan q' 2 (body ++ [x])
                 | _ => if (x =? 93)%N then Some (class_of body :: translate q')
                        else scan q' 2 (body ++ [x])
                 end
             end) pat' 0 []
        with
        | Some items => items
        | None => GChar c :: translate pat'
        end
      else GChar c :: translate pat'
  end.

Definition in_class (x : char) (set : list (char * char)) : bool :=
  existsb (fun r => (fst r <=? x)%N && (x <=? snd r)%N) set.

Fixpoint gmatch (g : list gitem) (s : str) : bool :=
  match g with
  | [] => match s with [] => true | _ => false end
  | GStar :: g' =>
      (fix star (s : str) : bool :=
         gmatch g' s || match s with [] => false | _ :: s' => star s' end) s
  | GAny :: g' => match s with _ :: s' => gmatch g' s' | [] => false end
  | GClass neg set :: g' =>
      match s with
      | x :: s' => xorb neg (in_class x set) && gmatch g' s'
      | [] => false
      end
  | GChar c :: g' =>
      match s with
      | x :: s' => N.eqb x c && gmatch g' s'
      | [] => false
      end
  end.

Definition fnmatch (name pat : str) : bool := gmatch (translate pat) name.

End Fnmatch.

(** ** [pathlib] paths *)

Module Path.

(** A path is its parts; [anchored] tells a path that starts at the root
    directory from a relative one.  A part is a name: not empty, no slash. *)
Record path := { anchored : bool; parts : list str }.

Definition root_dir : path := {| anchored := true; parts := [] |}.
Definition abs (ps : list str) : path := {| anchored := true; parts := ps |}.
Definition rel (ps : list str) : path := {| anchored := false; parts := ps |}.

Fixpoint parts_eqb (a b : list str) : bool :=
  match a, b with
  | [], [] => true
  | x :: a', y :: b' => Str.eqb x y && parts_eqb a' b'
  | _, _ => false
  end.

Definition eqb (p q : path) : bool :=
  Bool.eqb (anchored p) (anchored q) && parts_eqb (parts p) (parts q).

(** [str(p)] *)
Definition to_str (p : path) : str :=
  if anchored p then SLASH :: join [SLASH] (parts p)
  else match parts p with
       | [] => [DOT]
       | ps => join [SLASH] ps
       end.

(** [p.name] *)
Definition name (p : path) : str := last (parts p) [].

(** [p.suffix]: the name from its last dot on, when that dot is neither the
    first nor the last character of the name. *)
Definition suffix (p : path) : str :=
  let n := name p in
  match rfind_dot n with
  | Some i => if Nat.ltb 0 i && Nat.ltb i (List.length n - 1) then skipn i n else []
  | None => []
  end.

(** [p / child] for a relative [child] *)
Definition join_parts (p : path) (child : list str) : path :=
  {| anchored := anchored p; parts := parts p ++ child |}.

(** [p.parent] *)
Definition parent (p : path) : path :=
  {| anchored := anchored p; parts := removelast (parts p) |}.

Fixpoint strip_prefix (pre ps : list str) : option (list str) :=
  match pre with
  | [] => Some ps
  | x :: pre' =>
      match ps with
      | y :: ps' => if Str.eqb x y then strip_prefix pre' ps' else None
      | [] => None
      end
  end.

(** [p.relative_to(base).parts]; [ValueError] when [p] is not under [base]. *)
Definition relative_to (p base : path) : result (list str) :=
  if Bool.eqb (anchored p) (anchored base) then
    match strip_prefix (parts base) (parts p) with
    | Some ps => Ok ps
    | None => Raise ValueError
    end
  else Raise ValueError.

End Path.
Import Path.

(** ** The program's tables *)

(** [EXCLUDE_FILES], in the order of the source (a set: the order is of no
    consequence to membership tests). *)
Definition EXCLUDE_FILES : list str :=
  [ lit ".gitignore"; lit ".gitattributes"; lit ".hgignore"; lit ".svnignore";
     lit "requirements.txt"; lit "*LICENSE*"; lit "setup.py"; lit "setup.cfg";
     lit "pyproject.toml"; lit "Pipfile"; lit "Pipfile.lock"; lit "*README*";
     lit "package.json"; lit "package-lock.json"; lit "yarn.lock"; lit "composer.json";
     lit "composer.lock"; lit ".editorconfig"; lit ".eslintrc"; lit ".prettierrc";
     lit ".stylelintrc"; lit "*.pyc"; lit "*.pyo"; lit "*.pyd"; lit "*.so";
     lit "*.dll"; lit "*.exe"; lit "*.obj"; lit "*.o"; lit "*.a"; lit "*.lib";
     lit "*.egg"; lit "*.whl"; lit "*.log"; lit "*.sql"; lit "*.sqlite"; lit "*.db";
     lit ".DS_Store"; lit "Thumbs.db"; lit "desktop.ini"; lit "*~"; lit "*.swp";
     lit "*.swo"; lit "*.tmp"; lit "temp_*"; lit "__init__.py"; lit "MANIFEST.in";
     lit "node_modules"; lit "*.iml"; lit "*.ipr"; lit "*.iws"; lit "*.bak";
     lit "*.cache"; lit "*.pid"; lit "*.png"; lit "*.jpg"; lit "*.jpeg"; lit "*.gif";
     lit "*.bmp"; lit "*.svg"; lit "*.tiff"; lit "*.ico"; lit "*.mp4"; lit "*.mkv";
     lit "*.avi"; lit "*.mov"; lit "*.wmv"; lit "*.flv"; lit "*.webm"; lit "*.m4v";
     lit "*.mp3"; lit "*.wav"; lit "*.flac"; lit "*.aac"; lit "*.ogg"; lit "*.wma";
     lit "*.m4a"; lit "*.pdf"; lit "*.doc"; lit "*.docx"; lit "*.ppt"; lit "*.pptx";
     lit "*.xls"; lit "*.xlsx"; lit "*.odt"; lit "*.ods"; lit "*.zip"; lit "*.tar";
     lit "*.gz"; lit "*.rar"; lit "*.7z"; lit "*.bz2"; lit "*.xz"; lit "*.psd";
     lit "*.ai"; lit "*.eps"; lit "*.indd"; lit "*.fla"; lit "*.swf"; lit "*aider*";
     lit "*.tree_map.*"; lit "repo_map.md"; lit "repo_map_gen*" ].

(** [EXCLUDE_DIRS] *)
Definition EXCLUDE_DIRS : list str :=
  [ lit ".git"; lit ".svn"; lit ".hg"; lit "CVS"; lit "venv"; lit "env"; lit ".env";
     lit "virtualenv"; lit ".venv"; lit ".conda"; lit "anaconda"; lit "miniconda";
     lit "build"; lit "dist"; lit "target"; lit "out"; lit "__pycache__";
     lit ".mypy_cache"; lit ".pytest_cache"; lit ".ruff_cache"; lit ".tox";
     lit ".eggs"; lit ".cache"; lit "node_modules"; lit "bower_components";
     lit "jspm_packages"; lit "vendor"; lit "packages"; lit ".idea"; lit ".vscode";
     lit ".vs"; lit ".eclipse"; lit ".settings"; lit ".sublime-project";
     lit ".sublime-workspace"; lit "docs"; lit "_build"; lit "site"; lit "sphinx-docs";
     lit "htmlcov"; lit ".coverage"; lit ".coveragerc"; lit "logs"; lit "__logs__";
     lit "tmp"; lit "temp"; lit "$RECYCLE.BIN"; lit "System Volume Information";
     lit ".sass-cache"; lit ".gradle"; lit ".m2"; lit "media"; lit "public";
     lit "static"; lit "assets"; lit "*aider*"; lit ".tree_map_backup" ].

(** A comment style: (start, middle, end). *)
Definition style := (str * str * str)%type.

Definition DEFAULT_COMMENT_STYLE : style := (lit "#", lit "#", lit "").

(** [COMMENT_STYLES], keyed by extension. *)
Definition COMMENT_STYLES : list (str * style) :=
  [ (lit "py", (lit "#", lit "#", lit ""));
    (lit "js", (lit "//", lit "//", lit ""));
    (lit "java", (lit "//", lit "//", lit ""));
    (lit "c", (lit "//", lit "//", lit ""));
    (lit "cpp", (lit "//", lit "//", lit ""));
    (lit "cs", (lit "//", lit "//", lit ""));
    (lit "go", (lit "//", lit "//", lit ""));
    (lit "rs", (lit "//", lit "//", lit ""));
    (lit "swift", (lit "//", lit "//", lit ""));
    (lit "kt", (lit "//", lit "//", lit ""));
    (lit "scala", (lit "//", lit "//", lit ""));
    (lit "rb", (lit "#", lit "#", lit ""));
    (lit "pl", (lit "#", lit "#", lit ""));
    (lit "sh", (lit "#", lit "#", lit ""));
    (lit "bash", (lit "#", lit "#", lit ""));
    (lit "zsh", (lit "#", lit "#", lit ""));
    (lit "yaml", (lit "#", lit "#", lit ""));
    (lit "yml", (lit "#", lit "#", lit ""));
    (lit "toml", (lit "#", lit "#", lit ""));
    (lit "ini", (lit ";", lit ";", lit ""));
    (lit "cfg", (lit ";", lit ";", lit ""));
    (lit "conf", (lit "#", lit "#", lit ""));
    (lit "sql", (lit "--", lit "--", lit ""));
    (lit "lua", (lit "--", lit "--", lit ""));
    (lit "hs", (lit "--", lit "--", lit ""));
    (lit "md", (lit "<!--", lit " *", lit "-->"));
    (lit "html", (lit "<!--", lit " *", lit "-->"));
    (lit "htm", (lit "<!--", lit " *", lit "-->"));
    (lit "xml", (lit "<!--", lit " *", lit "-->"));
    (lit "css", (lit "/*", lit " *", lit "*/"));
    (lit "scss", (lit "/*", lit " *", lit "*/"));
    (lit "less", (lit "/*", lit " *", lit "*/"));
    (lit "php", (lit "/*", lit " *", lit "*/"));
    (lit "jsx", (lit "/*", lit " *", lit "*/"));
    (lit "tsx", (lit "/*", lit " *", lit "*/")) ].

Definition MAX_PATH_LENGTH : nat := 260.

(** ** The file system the program sees *)

(** What a file holds, as the two ways of reading it tell: text that decodes
    as UTF-8 (the code points stored, before newline translation), text that
    only the locale's codec decodes, or bytes no text-mode read accepts. *)
Inductive data :=
| Text (s : str)
| LocaleText (size : N)
| Binary (size : N).

Inductive node :=
| Dir
| File (d : data) (writable : bool)
| Denied.   (* the entry is listed, but [stat] on it raises PermissionError *)

(** The entries of the file system, in the order a directory walk lists them. *)
Definition fs := list (path * node).

Fixpoint lookup (t : fs) (p : path) : option node :=
  match t with
  | [] => None
  | (q, n) :: t' => if Path.eqb q p then Some n else lookup t' p
  end.

Fixpoint update (t : fs) (p : path) (n : node) : fs :=
  match t with
  | [] => []
  | (q, m) :: t' => if Path.eqb q p then (q, n) :: t' else (q, m) :: update t' p n
  end.

(** [p.is_file()]: [False] for what does not exist, an error of [stat] other
    than a missing entry is raised. *)
Definition is_file (t : fs) (p : path) : result bool :=
  match lookup t p with
  | Some (File _ _) => Ok true
  | Some Denied => Raise PermissionError
  | _ => Ok false
  end.

Definition is_dir (t : fs) (p : path) : result bool :=
  match lookup t p with
  | Some Dir => Ok true
  | Some Denied => Raise PermissionError
  | _ => Ok false
  end.

(** ** [should_exclude] *)

Definition matches_any (name : str) (patterns : list str) : bool :=
  existsb (fun pattern => Fnmatch.fnmatch (lower name) (lower pattern)) patterns.

Definition should_exclude (t : fs) (p relative_to : path) : result bool :=
  try ps <- Path.relative_to p relative_to in
  if existsb (fun part => matches_any part EXCLUDE_DIRS) ps then Ok true
  else
    try f <- is_file t p in
    if f then Ok (matches_any (Path.name p) EXCLUDE_FILES) else Ok false.

(** ** [get_comment_style] *)

Fixpoint styles_get (k : str) (table : list (str * style)) : option style :=
  match table with
  | [] => None
  | (k', v) :: table' => if Str.eqb k' k then Some v else styles_get k table'
  end.

Definition get_comment_style (file_extension : str) : style :=
  match styles_get (lstrip_dots file_extension) COMMENT_STYLES with
  | Some s => s
  | None => DEFAULT_COMMENT_STYLE
  end.

(** ** [hashlib.md5] (RFC 1321) and the UTF-8 codec *)

Module Md5.

Local Open Scope Z_scope.

Definition byte := Z.

Definition M32 : Z := 2 ^ 32.
Definition add32 (a b : Z) : Z := (a + b) mod M32.
Definition not32 (a : Z) : Z := Z.lxor a (M32 - 1).
Definition rotl32 (x n : Z) : Z :=
  Z.lor (Z.shiftl x n mod M32) (Z.shiftr x (32 - n)).

(** The sine table and the per-round shift amounts. *)
Definition K : list Z :=
  [ 0xd76aa478; 0xe8c7b756; 0x242070db; 0xc1bdceee;
    0xf57c0faf; 0x4787c62a; 0xa8304613; 0xfd469501;
    0x698098d8; 0x8b44f7af; 0xffff5bb1; 0x895cd7be;
    0x6b901122; 0xfd987193; 0xa679438e; 0x49b40821;
    0xf61e2562; 0xc040b340; 0x265e5a51; 0xe9b6c7aa;
    0xd62f105d; 0x02441453; 0xd8a1e681; 0xe7d3fbc8;
    0x21e1cde6; 0xc33707d6; 0xf4d50d87; 0x455a14ed;
    0xa9e3e905; 0xfcefa3f8; 0x676f02d9; 0x8d2a4c8a;
    0xfffa3942; 0x8771f681; 0x6d9d6122; 0xfde5380c;
    0xa4beea44; 0x4bdecfa9; 0xf6bb4b60; 0xbebfbc70;
    0x289b7ec6; 0xeaa127fa; 0xd4ef3085; 0x04881d05;
    0xd9d4d039; 0xe6db99e5; 0x1fa27cf8; 0xc4ac5665;
    0xf4292244; 0x432aff97; 0xab9423a7; 0xfc93a039;
    0x655b59c3; 0x8f0ccc92; 0xffeff47d; 0x85845dd1;
    0x6fa87e4f; 0xfe2ce6e0; 0xa3014314; 0x4e0811a1;
    0xf7537e82; 0xbd3af235; 0x2ad7d2bb; 0xeb86d391 ].

Definition SHIFTS : list Z :=
  [ 7; 12; 17; 22; 7; 12; 17; 22; 7; 12; 17; 22; 7; 12; 17; 22;
    5; 9; 14; 20; 5; 9; 14; 20; 5; 9; 14; 20; 5; 9; 14; 20;
    4; 11; 16; 23; 4; 11; 16; 23; 4; 11; 16; 23; 4; 11; 16; 23;
    6; 10; 15; 21; 6; 10; 15; 21; 6; 10; 15; 21; 6; 10; 15; 21 ].

(** The four chaining words. *)
Definition state := (Z * Z * Z * Z)%type.

Definition INIT : state := (0x67452301, 0xefcdab89, 0x98badcfe, 0x10325476).

(** The sixteen little-endian words of a 64-byte block. *)
Fixpoint words (block : list byte) : list Z :=
  match block with
  | b0 :: b1 :: b2 :: b3 :: rest =>
      (b0 + 256 * b1 + 65536 * b2 + 16777216 * b3) :: words rest
  | _ => []
  end.

Definition round (m : list Z) (st : state) (i : nat) : state :=
  let '(a, b, c, d) := st in
  let '(f, g) :=
    if Nat.ltb i 16 then (Z.lor (Z.land b c) (Z.land (not32 b) d), i)
    else if Nat.ltb i 32 then
      (Z.lor (Z.land d b) (Z.land (not32 d) c), Nat.modulo (5 * i + 1) 16)
    else if Nat.ltb i 48 then (Z.lxor b (Z.lxor c d), Nat.modulo (3 * i + 5) 16)
    else (Z.lxor c (Z.lor b (not32 d)), Nat.modulo (7 * i) 16) in
  let f' := add32 (add32 (add32 f a) (nth i K 0)) (nth g m 0) in
  (d, add32 b (rotl32 f' (nth i SHIFTS 0)), b, c).

Definition compress (st : state) (block : list byte) : state :=
  let '(a0, b0, c0, d0) := st in
  let '(a, b, c, d) := fold_left (round (words block)) (seq 0 64) st in
  (add32 a0 a, add32 b0 b, add32 c0 c, add32 d0 d).

(** The running digest: the chaining words and the bytes of the block being
    filled, the newest first. *)
Definition feed (acc : state * list byte) (b : byte) : state * list byte :=
  let '(st, buf) := acc in
  let buf' := b :: buf in
  if Nat.eqb (List.length buf') 64 then (compress st (rev buf'), []) else (st, buf').

(** The padding: a one bit, zeros up to 56 modulo 64, the bit length on eight
    little-endian bytes. *)
Definition le_bytes (n : nat) (v : Z) : list byte :=
  map (fun i => Z.shiftr v (8 * Z.of_nat i) mod 256) (seq 0 n).

Definition padding (len : nat) : list byte :=
  let r := Nat.modulo (len + 1) 64 in
  let zeros := if Nat.leb r 56 then (56 - r)%nat else (120 - r)%nat in
  128 :: repeat 0 zeros ++ le_bytes 8 ((8 * Z.of_nat len) mod 2 ^ 64).

Definition digest_state (msg : list byte) : state :=
  fst (fold_left feed (msg ++ padding (List.length msg)) (INIT, [])).

(** [md5(msg).digest()]: sixteen bytes. *)
Definition digest (msg : list byte) : list byte :=
  let '(a, b, c, d) := digest_state msg in
  le_bytes 4 a ++ le_bytes 4 b ++ le_bytes 4 c ++ le_bytes 4 d.

Definition hex_digit (v : Z) : char :=
  Z.to_N (if v <? 10 then 48 + v else 87 + v).

Definition hex_byte (b : byte) : str := [hex_digit (b / 16); hex_digit (b mod 16)].

(** [md5(msg).hexdigest()] *)
Definition hexdigest (msg : list byte) : str := flat_map hex_byte (digest msg).

(** [s.encode()]: strict UTF-8. *)
Definition encode_char (c : char) : list byte :=
  let z := Z.of_N c in
  if z <? 128 then [z]
  else if z <? 2048 then [192 + z / 64; 128 + z mod 64]
  else if z <? 65536 then [224 + z / 4096; 128 + (z / 64) mod 64; 128 + z mod 64]
  else [240 + z / 262144; 128 + (z / 4096) mod 64; 128 + (z / 64) mod 64;
        128 + z mod 64].

Definition encode (s : str) : result (list byte) :=
  if utf8_encodable s then Ok (flat_map encode_char s) else Raise UnicodeEncodeError.

End Md5.

(** ** The map block and its insertion (lines 218-240 of the source) *)

Import Re.

Definition nonempty (s : str) : bool :=
  match s with [] => false | _ => true end.

(** [updated_map]: the block built for a file called [name]. *)
Definition updated_map (st : style) (tree name : str) : str :=
  let '(comment_start, comment_middle, comment_end) := st in
  let header := comment_start ++ lit " Repository Map:" ++ [NL] in
  let lines :=
    fold_left (fun acc line => acc ++ comment_middle ++ [SPACE] ++ line ++ [NL])
              (split_on NL tree) header in
  let block := lines ++ comment_middle ++ lit " File: " ++ name ++ [NL] in
  if nonempty comment_end then block ++ comment_end ++ [NL] else block.

(** [map_pattern]: the existing map, its "File:" line included, and the end
    marker with the white space after it when the style has one. *)
Definition map_pattern (st : style) : pattern :=
  let '(comment_start, comment_middle, comment_end) := st in
  let p :=
    [Open 1] ++ escape comment_start ++ map Lit (lit " Repository Map:")
      ++ [LazyAny] ++ escape comment_middle ++ map Lit (lit " File:")
      ++ [LazyAny; Lit NL; Close 1] in
  if nonempty comment_end
  then p ++ [Open 2] ++ escape comment_end ++ [GreedySpace; Close 2]
  else p.

(** [updated_content] for a file of content [content]: the first existing
    map replaced, or the new map put in front. *)
Definition updated_content (st : style) (tree name content : str) : result str :=
  let new_map := updated_map st tree name in
  let pat := map_pattern st in
  match search pat content with
  | Some _ =>
      try (replaced, n) <- subn1 pat new_map content in
      if Nat.eqb n 0 then Ok (new_map ++ content) else Ok replaced
  | None => Ok (new_map ++ content)
  end.

(** The insertion as the specification names it: [apply] for a file called
    [filename]; the comment style is the one of its extension. *)
Definition apply_map (filename tree content : str) : result str :=
  updated_content (get_comment_style (Path.suffix (rel [filename]))) tree filename content.

(** ** Metrics and the state of a run *)

Record metrics := {
  files_processed : nat;
  files_modified : nat;
  files_skipped : nat;
  backup_size : N;
  errors : nat
}.

Definition metrics0 : metrics :=
  {| files_processed := 0; files_modified := 0; files_skipped := 0;
     backup_size := 0; errors := 0 |}.

(** The file system, the copies made under the backup root (kept apart from
    the walked entries: the backup root the program uses lies under
    [.tree_map_backup], which the walk excludes), and the counters. *)
Record world := {
  w_fs : fs;
  w_backups : list (path * data);
  w_metrics : metrics
}.

(** A computation that changes the world and returns or raises. *)
Definition M (A : Type) := world -> world * result A.

Definition ret {A} (a : A) : M A := fun w => (w, Ok a).
Definition raise {A} (e : exn) : M A := fun w => (w, Raise e).
Definition mbind {A B} (m : M A) (k : A -> M B) : M B :=
  fun w => match m w with
           | (w', Ok a) => k a w'
           | (w', Raise e) => (w', Raise e)
           end.
(** [try: m except Exception as e: h e]; what [m] changed before it raised
    stays changed. *)
Definition catch {A} (m : M A) (h : exn -> M A) : M A :=
  fun w => match m w with
           | (w', Ok a) => (w', Ok a)
           | (w', Raise e) => h e w'
           end.
Definition lift {A} (r : result A) : M A := fun w => (w, r).
Definition get_fs : M fs := fun w => (w, Ok (w_fs w)).

Notation "x <-- m ;; k" := (mbind m (fun x => k))
  (at level 61, m at next level, right associativity).
Notation "m ;;; k" := (mbind m (fun _ => k))
  (at level 61, right associativity).

Definition set_metrics (f : metrics -> metrics) : M unit :=
  fun w => ({| w_fs := w_fs w; w_backups := w_backups w;
               w_metrics := f (w_metrics w) |}, Ok tt).

Definition incr_processed (m : metrics) : metrics :=
  {| files_processed := S (files_processed m); files_modified := files_modified m;
     files_skipped := files_skipped m; backup_size := backup_size m;
     errors := errors m |}.
Definition incr_modified (m : metrics) : metrics :=
  {| files_processed := files_processed m; files_modified := S (files_modified m);
     files_skipped := files_skipped m; backup_size := backup_size m;
     errors := errors m |}.
Definition incr_skipped (m : metrics) : metrics :=
  {| files_processed := files_processed m; files_modified := files_modified m;
     files_skipped := S (files_skipped m); backup_size := backup_size m;
     errors := errors m |}.
Definition incr_errors (m : metrics) : metrics :=
  {| files_processed := files_processed m; files_modified := files_modified m;
     files_skipped := files_skipped m; backup_size := backup_size m;
     errors := S (errors m) |}.
Definition add_backup_size (n : N) (m : metrics) : metrics :=
  {| files_processed := files_processed m; files_modified := files_modified m;
     files_skipped := files_skipped m; backup_size := (backup_size m + n)%N;
     errors := errors m |}.

(** *** Reading and writing files *)

Definition set_node (p : path) (n : node) : M unit :=
  fun w => ({| w_fs := update (w_fs w) p n; w_backups := w_backups w;
               w_metrics := w_metrics w |}, Ok tt).

(** [open(p, 'tr').read()], the probe of [is_binary_file]: the locale's codec
    is taken to accept every UTF-8 text. *)
Definition read_locale (t : fs) (p : path) : result unit :=
  match lookup t p with
  | Some (File (Text _) _) | Some (File (LocaleText _) _) => Ok tt
  | Some (File (Binary _) _) => Raise UnicodeDecodeError
  | _ => Raise OSError
  end.

(** [is_binary_file]: any failure of the probe means binary. *)
Definition is_binary_file (t : fs) (p : path) : bool := negb (is_ok (read_locale t p)).

(** [open(p, 'r', encoding='utf-8').read()] *)
Definition read_utf8 (p : path) : M str :=
  fun w => (w, match lookup (w_fs w) p with
               | Some (File (Text s) _) => Ok (universal_newlines s)
               | Some (File _ _) => Raise UnicodeDecodeError
               | _ => Raise OSError
               end).

(** [with open(p, 'w', encoding='utf-8') as f: f.write(s)]: opening truncates
    the file; the strict codec then refuses a text with a lone surrogate, and
    the file is closed as the opening left it. *)
Definition write_utf8 (p : path) (s : str) : M unit :=
  t <-- get_fs ;;
  match lookup t p with
  | Some (File _ true) =>
      set_node p (File (Text []) true) ;;;
      if utf8_encodable s then set_node p (File (Text s) true)
      else raise UnicodeEncodeError
  | Some (File _ false) => raise PermissionError
  | _ => raise OSError
  end.

(** ** [create_backup] *)

(** The size [stat] reports: the length of the UTF-8 encoding of a text. *)
Definition size_of (d : data) : N :=
  match d with
  | Text s => N.of_nat (List.length (flat_map Md5.encode_char s))
  | LocaleText n | Binary n => n
  end.

(** The flat destination used when the mirrored one is too long:
    [backup_dir / f"{hash_name}{filepath.suffix}"]. *)
Definition fallback_path (backup_dir filepath : path) (hash_name : str) : path :=
  join_parts backup_dir [hash_name ++ Path.suffix filepath].

(** Where the backup of [filepath] goes (the part of [create_backup] before
    it touches the disk); [None] when no backup is to be made. *)
Definition backup_destination (t : fs) (filepath backup_dir startpath : path)
  : result (option path) :=
  try relative_path <- Path.relative_to filepath startpath in
  let backup_path := join_parts backup_dir relative_path in
  if contains (to_str filepath) (lit ".tree_map_backup") then Ok None
  else
    try excluded <- should_exclude t filepath startpath in
    if excluded then Ok None
    else if Nat.ltb MAX_PATH_LENGTH (List.length (to_str backup_path)) then
      try bytes <- Md5.encode (to_str filepath) in
      let hash_name := Md5.hexdigest bytes in
      Ok (Some (fallback_path backup_dir filepath hash_name))
    else Ok (Some backup_path).

(** [backup_path.parent.mkdir(parents=True, exist_ok=True)] followed by
    [shutil.copy2(filepath, backup_path)]; [copy_ok] tells the destinations
    the backup root accepts. *)
Definition copy2 (copy_ok : path -> bool) (src dst : path) : M N :=
  fun w =>
    match lookup (w_fs w) src with
    | Some (File d _) =>
        if copy_ok dst
        then ({| w_fs := w_fs w; w_backups := (dst, d) :: w_backups w;
                 w_metrics := w_metrics w |}, Ok (size_of d))
        else (w, Raise OSError)
    | _ => (w, Raise OSError)
    end.

Definition create_backup (copy_ok : path -> bool) (filepath backup_dir startpath : path)
  : M (option path) :=
  catch
    (t <-- get_fs ;;
     dest <-- lift (backup_destination t filepath backup_dir startpath) ;;
     match dest with
     | None => ret None
     | Some backup_path =>
         size <-- copy2 copy_ok filepath backup_path ;;
         set_metrics (add_backup_size size) ;;;
         ret (Some backup_path)
     end)
    (fun _ => set_metrics incr_errors ;;; ret None).

(** ** [update_files_with_tree] *)

(** The new content of the file [filepath] whose content is [content]
    (lines 218-240). *)
Definition new_content_of (tree : str) (filepath : path) (content : str) : result str :=
  updated_content (get_comment_style (Path.suffix filepath)) tree
                  (Path.name filepath) content.

(** The backup, when one is asked for: [backup_successful]. *)
Definition backup_phase (copy_ok : path -> bool) (startpath : path)
  (backup_dir : option path) (filepath : path) : M bool :=
  match backup_dir with
  | Some dir =>
      backup_path <-- create_backup copy_ok filepath dir startpath ;;
      ret (match backup_path with Some _ => true | None => false end)
  | None => ret true
  end.

(** The first part of the [try] block for one [filepath]: the backup, the
    read, and the new content.  It returns what was read, the new content
    and whether the backup was made. *)
Definition prepare (copy_ok : path -> bool) (startpath : path) (tree : str)
  (backup_dir : option path) (filepath : path) : M (str * str * bool) :=
  backup_successful <-- backup_phase copy_ok startpath backup_dir filepath ;;
  content <-- read_utf8 filepath ;;
  new_content <-- lift (new_content_of tree filepath content) ;;
  ret (content, new_content, backup_successful).

(** The whole [try] block: the file is written only when the new content
    differs from what was read. *)
Definition try_update (copy_ok : path -> bool) (startpath : path) (tree : str)
  (backup_dir : option path) (modified_files : list path) (filepath : path)
  : M (list path) :=
  prepared <-- prepare copy_ok startpath tree backup_dir filepath ;;
  let '(content, new_content, _) := prepared in
  if negb (Str.eqb new_content content) then
    write_utf8 filepath new_content ;;;
    set_metrics incr_modified ;;;
    ret (modified_files ++ [filepath])
  else set_metrics incr_skipped ;;; ret modified_files.

(** The [try] block with its handler. *)
Definition process_candidate (copy_ok : path -> bool) (startpath : path) (tree : str)
  (backup_dir : option path) (modified_files : list path) (filepath : path)
  : M (list path) :=
  catch (try_update copy_ok startpath tree backup_dir modified_files filepath)
        (fun _ =>
           set_metrics incr_errors ;;; set_metrics incr_skipped ;;;
           ret modified_files).

(** The body of the loop for one [filepath]; [modified_files] is the list so
    far. *)
Definition process_path (copy_ok : path -> bool) (startpath : path) (tree : str)
  (backup_dir : option path) (modified_files : list path) (filepath : path)
  : M (list path) :=
  t <-- get_fs ;;
  excluded <-- lift (should_exclude t filepath startpath) ;;
  if excluded then set_metrics incr_skipped ;;; ret modified_files
  else
    f <-- lift (is_file t filepath) ;;
    if f then
      set_metrics incr_processed ;;;
      if is_binary_file t filepath then set_metrics incr_skipped ;;; ret modified_files
      else process_candidate copy_ok startpath tree backup_dir modified_files filepath
    else ret modified_files.

Fixpoint process_all (copy_ok : path -> bool) (startpath : path) (tree : str)
  (backup_dir : option path) (walk : list path) (modified_files : list path)
  : M (list path) :=
  match walk with
  | [] => ret modified_files
  | filepath :: walk' =>
      modified_files' <--
        process_path copy_ok startpath tree backup_dir modified_files filepath ;;
      process_all copy_ok startpath tree backup_dir walk' modified_files'
  end.

(** [startpath.rglob('*')]: every entry below [startpath]. *)
Definition below (startpath p : path) : bool :=
  match Path.relative_to p startpath with
  | Ok (_ :: _) => true
  | _ => false
  end.

Definition rglob (t : fs) (startpath : path) : list path :=
  filter (below startpath) (map fst t).

Definition update_files_with_tree (copy_ok : path -> bool) (startpath : path)
  (tree : str) (backup_dir : option path) : M (list path) :=
  t <-- get_fs ;;
  process_all copy_ok startpath tree backup_dir (rglob t startpath) [].

(** ** [generate_tree] *)

Definition CORNER : str := [9492; 9472; 9472; 32]%N.   (* U+2514 U+2500 U+2500, a space *)
Definition TEE : str := [9500; 9472; 9472; 32]%N.      (* U+251C U+2500 U+2500, a space *)
Definition PIPE : str := [9474; 32; 32; 32]%N.         (* U+2502, three spaces *)
Definition BLANK : str := lit "    ".

(** The order of [str], and with it of sibling paths: by code point. *)
Fixpoint str_ltb (a b : str) : bool :=
  match a, b with
  | _, [] => false
  | [], _ :: _ => true
  | x :: a', y :: b' =>
      if (x <? y)%N then true else if (y <? x)%N then false else str_ltb a' b'
  end.

Fixpoint parts_ltb (a b : list str) : bool :=
  match a, b with
  | _, [] => false
  | [], _ :: _ => true
  | x :: a', y :: b' =>
      if str_ltb x y then true else if str_ltb y x then false else parts_ltb a' b'
  end.

Fixpoint insert_sorted (p : path) (l : list path) : list path :=
  match l with
  | [] => [p]
  | q :: l' => if parts_ltb (parts p) (parts q) then p :: q :: l'
               else q :: insert_sorted p l'
  end.

(** [sorted(paths)] *)
Definition sorted (l : list path) : list path := fold_right insert_sorted [] l.

(** [path.iterdir()] *)
Definition iterdir (t : fs) (dir : path) : list path :=
  filter (fun p => match parts p with
                   | [] => false
                   | _ => Path.eqb (Path.parent p) dir
                   end) (map fst t).

Definition enumerate {A} (l : list A) : list (nat * A) :=
  combine (seq 0 (List.length l)) l.

(** The first loop of [add_to_tree]: the names of the files and the
    directories among [items] that are not excluded. *)
Fixpoint classify (t : fs) (startpath : path) (items : list path)
  (files : list str) (dirs : list path) : result (list str * list path) :=
  match items with
  | [] => Ok (files, dirs)
  | item :: rest =>
      try excluded <- should_exclude t item startpath in
      if excluded then classify t startpath rest files dirs
      else
        try f <- is_file t item in
        if f then classify t startpath rest (files ++ [Path.name item]) dirs
        else
          try d <- is_dir t item in
          if d then classify t startpath rest files (dirs ++ [item])
          else classify t startpath rest files dirs
  end.

Definition file_lines (prefix : str) (files : list str) (dirs : list path) : list str :=
  map (fun '(i, file) =>
         if Nat.eqb i (List.length files - 1) && negb (Nat.ltb 0 (List.length dirs))
         then prefix ++ CORNER ++ file
         else prefix ++ TEE ++ file) (enumerate files).

(** [add_to_tree(path, prefix)], appending to [tree]; [limit] is the depth of
    recursion the interpreter allows. *)
Fixpoint add_to_tree (limit : nat) (t : fs) (startpath p : path) (prefix : str)
  (tree : list str) {struct limit} : result (list str) :=
  match limit with
  | O => Raise RecursionError
  | S limit' =>
      try (files, dirs) <- classify t startpath (sorted (iterdir t p)) [] [] in
      (fix each (ds : list (nat * path)) (tree : list str) {struct ds}
         : result (list str) :=
         match ds with
         | [] => Ok tree
         | (i, dir) :: ds' =>
             let is_last := Nat.eqb i (List.length dirs - 1) in
             try tree' <-
               add_to_tree limit' t startpath dir
                 (prefix ++ (if is_last then BLANK else PIPE))
                 (tree ++ [prefix ++ (if is_last then CORNER else TEE)
                                  ++ Path.name dir ++ [SLASH]]) in
             each ds' tree'
         end) (enumerate dirs) (tree ++ file_lines prefix files dirs)
  end.

Fixpoint take_while {A} (f : A -> bool) (l : list A) : list A :=
  match l with
  | x :: l' => if f x then x :: take_while f l' else []
  | [] => []
  end.

(** [s.split(sep, 1)]: around the first occurrence of [sep]. *)
Fixpoint split_once (sep s : str) : option (str * str) :=
  if startswith s sep then Some ([], skipn (List.length sep) s)
  else match s with
       | [] => None
       | c :: s' =>
           match split_once sep s' with
           | Some (a, b) => Some (c :: a, b)
           | None => None
           end
       end.

(** [l[i] = x] *)
Fixpoint assign {A} (i : nat) (x : A) (l : list A) : result (list A) :=
  match l, i with
  | [], _ => Raise IndexError
  | _ :: l', O => Ok (x :: l')
  | y :: l', S i' => try r <- assign i' x l' in Ok (y :: r)
  end.

(** "Add the final curved lines": the last part of [generate_tree], on the
    list of lines built so far. *)
Definition final_curved_lines (tree : list str) : result (list str) :=
  if Nat.ltb 1 (List.length tree) then
    let last_lines := take_while (fun line => startswith line CORNER) (rev tree) in
    fold_left
      (fun acc '(i, line) =>
         try tree' <- acc in
         match split_once CORNER line with
         | Some (_, text) =>
             assign (List.length tree - i - 1) (times BLANK i ++ CORNER ++ text) tree'
         | None => Raise IndexError
         end)
      (enumerate (rev last_lines)) (Ok tree)
  else Ok tree.

Definition tree_lines (limit : nat) (t : fs) (startpath : path) : result (list str) :=
  try tree <- add_to_tree limit t startpath startpath []
                [Path.name startpath ++ [SLASH]] in
  final_curved_lines tree.

Definition generate_tree (limit : nat) (t : fs) (startpath : path) : result str :=
  try tree <- tree_lines limit t startpath in
  Ok (join [NL] tree).

(** ** [git_commit_changes] *)

(** [range(0, stop, step)] for a positive [step]: the multiples of [step]
    below [stop]. *)
Definition range_step (stop step : nat) : list nat :=
  map (fun k => k * step) (seq 0 ((stop + step - 1) / step)).

Definition chunk_size : nat := 100.

(** The chunks of the loop: [modified_files[i:i + chunk_size]] for each [i]
    of the range. *)
Definition chunks (modified_files : list path) : list (list path) :=
  map (fun i => firstn chunk_size (skipn i modified_files))
      (range_step (List.length modified_files) chunk_size).






(** ** The preview of [main]

    [[f for f in current_dir.rglob('*') if f.is_file() and not
    should_exclude(f, current_dir) and not is_binary_file(f)]]: the tests in
    their order for each path of the walk; the first that raises ends the
    comprehension. *)
Fixpoint preview_of (t : fs) (current_dir : path) (walk : list path)
  : result (list path) :=
  match walk with
  | [] => Ok []
  | f :: walk' =>
      try keep <-
        (try is_f <- is_file t f in
         if is_f then
           try excluded <- should_exclude t f current_dir in
           if excluded then Ok false else Ok (negb (is_binary_file t f))
         else Ok false) in
      try rest <- preview_of t current_dir walk' in
      Ok (if keep then f :: rest else rest)
  end.

Definition preview (t : fs) (current_dir : path) : result (list path) :=
  preview_of t current_dir (rglob t current_dir).

(** ** Notions the statements use *)

(** [name] is excluded by one of [patterns]: it matches the pattern, both
    lowercased, in the sense of [fnmatch]. *)
Definition excluded_by (patterns : list str) (name : str) : Prop :=
  exists pattern,
    In pattern patterns /\ Fnmatch.fnmatch (lower name) (lower pattern) = true.

(** The content with its first existing map replaced by the new block as it
    stands, character for character; [None] when the content has no map. *)
Definition literal_replacement (st : style) (tree name content : str) : option str :=
  match search (map_pattern st) content with
  | Some m =>
      Some (firstn (m_start m) content ++ updated_map st tree name
              ++ skipn (m_end m) content)
  | None => None
  end.

(** A run on the file system [t] rewrites [p] with [new]: [p] is not
    excluded, it is a writable file of UTF-8 text, and its new content
    differs from the content read and can be encoded. *)
Definition rewrites (t : fs) (startpath : path) (tree : str) (p : path) (new : str)
  : Prop :=
  should_exclude t p startpath = Ok false /\
  exists old,
    lookup t p = Some (File (Text old) true) /\
    new_content_of tree p (universal_newlines old) = Ok new /\
    new <> universal_newlines old /\
    utf8_encodable new = true.

(** The counters of a world. *)
Definition fm (w : world) : nat := files_modified (w_metrics w).





(** The trailing run of a list of lines: the lines at its end that start
    with the corner connector, in their order; [before_run] is what stands
    before them. *)
Definition trailing_run (tree : list str) : list str :=
  rev (take_while (fun line => startswith line CORNER) (rev tree)).

Definition before_run (tree : list str) : list str :=
  firstn (List.length tree - List.length (trailing_run tree)) tree.

(** Each line of [run] behind as many blank indents as its place in [run]. *)
Definition indented (run : list str) : list str :=
  map (fun '(i, line) => times BLANK i ++ line) (enumerate run).

(** The lines after the last pass: the trailing run is replaced by its
    indented lines in the opposite order. *)
Definition curved (tree : list str) : list str :=
  if Nat.ltb 1 (List.length tree)
  then before_run tree ++ rev (indented (trailing_run tree))
  else tree.

(** The texts a pattern matches, whatever the order in which the engine
    tries them: the literals themselves, any text for [.*?], white space
    for [\s*]; a parenthesis matches the empty text. *)
Inductive Matches : pattern -> str -> Prop :=
| M_end : Matches [] []
| M_lit (c : char) (p : pattern) (w : str) :
    Matches p w -> Matches (Lit c :: p) (c :: w)
| M_any (a : str) (p : pattern) (w : str) :
    Matches p w -> Matches (LazyAny :: p) (a ++ w)
| M_space (a : str) (p : pattern) (w : str) :
    forallb is_space a = true -> Matches p w -> Matches (GreedySpace :: p) (a ++ w)
| M_open (g : nat) (p : pattern) (w : str) :
    Matches p w -> Matches (Open g :: p) w
| M_close (g : nat) (p : pattern) (w : str) :
    Matches p w -> Matches (Close g :: p) w.


(** The four connectors of the tree, and a line drawn under [prefix]: the
    prefix, a connector, and the rest. *)
Definition connectors : list str := [TEE; CORNER; PIPE; BLANK].

Definition drawn (prefix line : str) : Prop :=
  exists conn rest, In conn connectors /\ line = prefix ++ conn ++ rest.

(** The lines of a block between its first line and its [File:] line, with
    the line feed that ends the first line. *)
Definition block_body (comment_middle tree : str) : str :=
  [NL] ++ List.concat (map (fun line => comment_middle ++ [SPACE] ++ line ++ [NL])
                        (split_on NL tree)).

(** [key] occurs in [body ++ key] only at the end. *)
Definition only_at_end (key body : str) : bool :=
  forallb (fun k => negb (startswith (skipn k (body ++ key)) key))
          (seq 0 (List.length body)).

(** [c] does not start with white space. *)
Definition no_leading_space (c : str) : bool :=
  match c with
  | [] => true
  | x :: _ => negb (is_space x)
  end.

(** [match_here] ends at [e], whatever the groups recorded so far. *)
Definition ends (p : pattern) (s : str) (pos e : nat) : Prop :=
  forall caps, exists caps', match_here p s pos caps = Some (e, caps').

(** The names a pattern of stars and plain characters stands for: a star
    for any text, a character for itself. *)
Inductive Globs : str -> str -> Prop :=
| G_end : Globs [] []
| G_star (pat a s : str) : Globs pat s -> Globs (42%N :: pat) (a ++ s)
| G_char (c : char) (pat s : str) :
    c <> 42%N -> Globs pat s -> Globs (c :: pat) (c :: s).

(** A pattern without [?] and without bracket. *)
Definition star_pattern (pat : str) : bool :=
  forallb (fun c => negb (N.eqb c 63) && negb (N.eqb c 91)) pat.

(** * Properties *)

(** ** Equality tests *)

Lemma str_eqb_eq (a b : str) : Str.eqb a b = true <-> a = b.
Proof.
  revert b; induction a as [|x a IH]; intros [|y b]; simpl; split;
    try congruence; try reflexivity.
  - intros H. apply andb_true_iff in H as [Hx Hab].
    apply N.eqb_eq in Hx. apply IH in Hab. congruence.
  - intros H. injection H as -> ->. rewrite N.eqb_refl. simpl. now apply IH.
Qed.

Lemma str_eqb_refl (a : str) : Str.eqb a a = true.
Proof. now apply str_eqb_eq. Qed.

Lemma parts_eqb_eq (a b : list str) : Path.parts_eqb a b = true <-> a = b.
Proof.
  revert b; induction a as [|x a IH]; intros [|y b]; simpl; split;
    try congruence; try reflexivity.
  - intros H. apply andb_true_iff in H as [Hx Hab].
    apply str_eqb_eq in Hx. apply IH in Hab. congruence.
  - intros H. injection H as -> ->. rewrite str_eqb_refl. simpl. now apply IH.
Qed.

Lemma path_eqb_eq (p q : path) : Path.eqb p q = true <-> p = q.
Proof.
  destruct p as [a ps], q as [b qs]. unfold Path.eqb. simpl. split.
  - intros H. apply andb_true_iff in H as [Ha Hp].
    apply Bool.eqb_prop in Ha. apply parts_eqb_eq in Hp. congruence.
  - intros H. injection H as -> ->. rewrite Bool.eqb_reflx. simpl.
    now apply parts_eqb_eq.
Qed.


Lemma path_eqb_neq (p q : path) : Path.eqb p q = false <-> p <> q.
Proof.
  split.
  - intros H E. apply path_eqb_eq in E. congruence.
  - intros H. destruct (Path.eqb p q) eqn:E; [|reflexivity].
    apply path_eqb_eq in E. contradiction.
Qed.

(** ** The exclusion filter *)

Lemma matches_any_spec (name : str) (patterns : list str) :
  matches_any name patterns = true <-> excluded_by patterns name.
Proof.
  unfold matches_any, excluded_by. rewrite existsb_exists. reflexivity.
Qed.

Lemma excluded_part_spec (ps : list str) :
  existsb (fun part => matches_any part EXCLUDE_DIRS) ps = true <->
  exists part, In part ps /\ excluded_by EXCLUDE_DIRS part.
Proof.
  rewrite existsb_exists. split; intros (part & Hin & H); exists part;
    (split; [assumption|]); now apply matches_any_spec.
Qed.


(** C5, what holds instead: [should_exclude] returns a boolean exactly when
    the path is under the root and either one of its segments matches a
    directory pattern or the file-type probe of the path does not fail. *)
Theorem should_exclude_returns_iff (t : fs) (p r : path) :
  (exists b, should_exclude t p r = Ok b) <->
  exists ps, Path.relative_to p r = Ok ps /\
    ((exists part, In part ps /\ excluded_by EXCLUDE_DIRS part) \/
     exists f, is_file t p = Ok f).
Proof.
  unfold should_exclude. destruct (Path.relative_to p r) as [ps|e]; cbn [bind].
  - destruct (existsb _ ps) eqn:Hdirs.
    + split; [|intros _; now exists true].
      intros _. exists ps. split; [reflexivity|]. left.
      now apply excluded_part_spec.
    + split.
      * intros [b Hb]. exists ps. split; [reflexivity|]. right.
        destruct (is_file t p) as [f|e]; [now exists f|discriminate].
      * intros (ps' & Heq & [H|[f Hf]]).
        -- injection Heq as <-. apply excluded_part_spec in H. congruence.
        -- rewrite Hf. cbn [bind]. destruct f; eexists; reflexivity.
  - split; [intros [b Hb]; discriminate|]. intros (ps & H & _). discriminate.
Qed.


(** C5 as stated fails: a path outside the root makes [should_exclude]
    raise [ValueError], so it does not return a boolean for every pair. *)
Lemma should_exclude_raises_outside_root :
  should_exclude [] (abs [lit "a"]) (abs [lit "b"]) = Raise ValueError /\
  ~ (forall (t : fs) (p r : path), exists b, should_exclude t p r = Ok b).
Proof.
  split; [reflexivity|].
  intros H. destruct (H [] (abs [lit "a"]) (abs [lit "b"])) as [b Hb].
  vm_compute in Hb. discriminate Hb.
Qed.

(** ** The map block *)

Lemma str_neq_by_eqb (a b : str) : Str.eqb a b = false -> a <> b.
Proof. intros H E. apply str_eqb_eq in E. congruence. Qed.

(** C8. The new block reaches [re.subn] as a replacement template.  With a
    map already in the file and a tree that names a file [a\1b], the
    reference [\1] is replaced by the old map, so the content differs from
    the block inserted as it stands; with a file [a\gb] the substitution
    raises. *)
Theorem replacement_is_a_template :
  let st := get_comment_style (lit ".py") in
  let old_map := updated_map st (lit "r/") (lit "a.py") in
  let content := old_map ++ lit "x = 1" in
  (exists tree verbatim got,
      In BACKSLASH tree /\
      literal_replacement st tree (lit "a.py") content = Some verbatim /\
      updated_content st tree (lit "a.py") content = Ok got /\
      got <> verbatim) /\
  (exists tree verbatim,
      In BACKSLASH tree /\
      literal_replacement st tree (lit "a.py") content = Some verbatim /\
      updated_content st tree (lit "a.py") content = Raise TemplateError).
Proof.
  split.
  - exists (lit "r/" ++ [NL] ++ CORNER ++ lit "a\1b").
    eexists. eexists. split; [|split; [|split]].
    + vm_compute. tauto.
    + vm_compute. reflexivity.
    + vm_compute. reflexivity.
    + apply str_neq_by_eqb. vm_compute. reflexivity.
  - exists (lit "r/" ++ [NL] ++ CORNER ++ lit "a\gb").
    eexists. split; [|split].
    + vm_compute. tauto.
    + vm_compute. reflexivity.
    + vm_compute. reflexivity.
Qed.

(** ** The file system as a map *)

Lemma lookup_update_other (t : fs) (p q : path) (n : node) :
  q <> p -> lookup (update t p n) q = lookup t q.
Proof.
  intros Hne. induction t as [|[k m] t IH]; simpl; [reflexivity|].
  destruct (Path.eqb k p) eqn:Ekp; simpl.
  - apply path_eqb_eq in Ekp. subst k.
    destruct (Path.eqb p q) eqn:Epq; [|reflexivity].
    apply path_eqb_eq in Epq. congruence.
  - destruct (Path.eqb k q); [reflexivity|apply IH].
Qed.

Lemma lookup_update_same (t : fs) (p : path) (n : node) :
  lookup t p <> None -> lookup (update t p n) p = Some n.
Proof.
  induction t as [|[k m] t IH]; simpl; [congruence|].
  destruct (Path.eqb k p) eqn:Ekp; simpl; rewrite Ekp; [reflexivity|apply IH].
Qed.

Lemma update_keys (t : fs) (p : path) (n : node) :
  map fst (update t p n) = map fst t.
Proof.
  induction t as [|[k m] t IH]; simpl; [reflexivity|].
  destruct (Path.eqb k p); simpl; congruence.
Qed.

(** [should_exclude] looks at the file system only through the entry of the
    path it is asked about. *)
Lemma should_exclude_local (t t' : fs) (p r : path) :
  lookup t' p = lookup t p -> should_exclude t' p r = should_exclude t p r.
Proof.
  intros H. unfold should_exclude, is_file. now rewrite H.
Qed.

Lemma rewrites_local (t t' : fs) (startpath : path) (tree : str) (p : path) (new : str) :
  lookup t' p = lookup t p ->
  rewrites t startpath tree p new -> rewrites t' startpath tree p new.
Proof.
  intros H [Hex (old & Hl & Hrest)]. split.
  - now rewrite (should_exclude_local t t' p startpath H).
  - exists old. now rewrite H.
Qed.

Lemma rewrites_functional (t : fs) (startpath : path) (tree : str) (p : path)
  (new new' : str) :
  rewrites t startpath tree p new -> rewrites t startpath tree p new' -> new = new'.
Proof.
  intros [_ (old & Hl & Hn & _)] [_ (old' & Hl' & Hn' & _)].
  rewrite Hl in Hl'. injection Hl' as <-. congruence.
Qed.

(** ** One step of the run *)

Section Run.

Variable copy_ok : path -> bool.
Variables (startpath : path) (tree : str) (backup_dir : option path).

Lemma create_backup_frame (filepath dir : path) (w w' : world) (r : result (option path)) :
  create_backup copy_ok filepath dir startpath w = (w', r) ->
  w_fs w' = w_fs w /\ fm w' = fm w /\ exists b, r = Ok b.
Proof.
  unfold create_backup, catch, mbind, get_fs, lift, copy2, set_metrics, ret, fm.
  destruct (backup_destination (w_fs w) filepath dir startpath) as [[d|]|e]; simpl.
  - destruct (lookup (w_fs w) filepath) as [[|d0 wr|]|]; simpl;
      try (intros H; injection H as <- <-; simpl; eauto).
    destruct (copy_ok d); simpl; intros H; injection H as <- <-; simpl; eauto.
  - intros H; injection H as <- <-; simpl; eauto.
  - intros H; injection H as <- <-; simpl; eauto.
Qed.

Lemma backup_phase_frame (filepath : path) (w w' : world) (r : result bool) :
  backup_phase copy_ok startpath backup_dir filepath w = (w', r) ->
  w_fs w' = w_fs w /\ fm w' = fm w /\ exists b, r = Ok b.
Proof.
  unfold backup_phase. destruct backup_dir as [dir|].
  - unfold mbind, ret.
    destruct (create_backup copy_ok filepath dir startpath w) as [w1 r1] eqn:E.
    apply create_backup_frame in E as (Hfs & Hfm & b & ->).
    intros H; injection H as <- <-. eauto.
  - unfold ret. intros H; injection H as <- <-. eauto.
Qed.

(** The first part of the [try] block touches no file; it succeeds exactly
    on a file of UTF-8 text whose new content can be computed. *)
Lemma prepare_spec (filepath : path) (w w' : world) (r : result (str * str * bool)) :
  prepare copy_ok startpath tree backup_dir filepath w = (w', r) ->
  w_fs w' = w_fs w /\ fm w' = fm w /\
  match r with
  | Ok (content, new_content, _) =>
      exists old wr,
        lookup (w_fs w) filepath = Some (File (Text old) wr) /\
        content = universal_newlines old /\
        new_content_of tree filepath content = Ok new_content
  | Raise _ =>
      forall old wr new_content,
        lookup (w_fs w) filepath = Some (File (Text old) wr) ->
        new_content_of tree filepath (universal_newlines old) <> Ok new_content
  end.
Proof.
  unfold prepare, mbind.
  destruct (backup_phase copy_ok startpath backup_dir filepath w) as [w1 r1] eqn:E.
  apply backup_phase_frame in E as (Hfs & Hfm & b & ->).
  unfold read_utf8, lift, ret. rewrite Hfs.
  destruct (lookup (w_fs w) filepath) as [[|[old|n|n] wr|]|] eqn:El;
    try (intros H; injection H as <- <-; repeat split; try assumption;
         intros; discriminate).
  destruct (new_content_of tree filepath (universal_newlines old)) as [new|e] eqn:En;
    intros H; injection H as <- <-; repeat split; try assumption.
  - exists old, wr. auto.
  - intros old' wr' new' Hl. injection Hl as <- <-. congruence.
Qed.

Lemma str_eqb_false (a b : str) : Str.eqb a b = false <-> a <> b.
Proof.
  split.
  - apply str_neq_by_eqb.
  - intros H. destruct (Str.eqb a b) eqn:E; [|reflexivity].
    apply str_eqb_eq in E. contradiction.
Qed.

(** What [write_utf8] does to a file, by the entry it finds. *)
Lemma write_utf8_spec (p : path) (s : str) (w : world) :
  match lookup (w_fs w) p with
  | Some (File _ true) =>
      if utf8_encodable s then
        exists w', write_utf8 p s w = (w', Ok tt) /\ w_metrics w' = w_metrics w /\
          lookup (w_fs w') p = Some (File (Text s) true) /\
          forall q, q <> p -> lookup (w_fs w') q = lookup (w_fs w) q
      else
        exists w', write_utf8 p s w = (w', Raise UnicodeEncodeError) /\
          w_metrics w' = w_metrics w /\
          lookup (w_fs w') p = Some (File (Text []) true) /\
          forall q, q <> p -> lookup (w_fs w') q = lookup (w_fs w) q
  | _ => exists e, write_utf8 p s w = (w, Raise e)
  end.
Proof.
  unfold write_utf8, mbind, get_fs, set_node, raise, fm.
  destruct (lookup (w_fs w) p) as [[|d [|]|]|] eqn:El; simpl; eauto.
  assert (Hsome : lookup (w_fs w) p <> None) by congruence.
  destruct (utf8_encodable s); simpl; eexists; (split; [reflexivity|]); simpl;
    (split; [reflexivity|]); split.
  - apply lookup_update_same. rewrite lookup_update_same; congruence.
  - intros q Hq. now rewrite !lookup_update_other.
  - now apply lookup_update_same.
  - intros q Hq. now rewrite lookup_update_other.
Qed.

Lemma is_file_true (t : fs) (p : path) :
  is_file t p = Ok true <-> exists d wr, lookup t p = Some (File d wr).
Proof.
  unfold is_file. destruct (lookup t p) as [[|d wr|]|]; split;
    try discriminate; try (intros (d' & wr' & H); discriminate); eauto.
Qed.

(** One path of the walk.  When the step returns, every other entry is as
    it was, and either the path is rewritten, appended to the list and
    counted, or it is not rewritten, the list and the count are as before. *)
Lemma process_path_step (acc acc' : list path) (p : path) (w w' : world) :
  process_path copy_ok startpath tree backup_dir acc p w = (w', Ok acc') ->
  (forall q, q <> p -> lookup (w_fs w') q = lookup (w_fs w) q) /\
  ((exists new,
       rewrites (w_fs w) startpath tree p new /\ acc' = acc ++ [p] /\
       lookup (w_fs w') p = Some (File (Text new) true) /\ fm w' = S (fm w))
   \/
   ((forall new, ~ rewrites (w_fs w) startpath tree p new) /\ acc' = acc /\
    fm w' = fm w)).
Proof.
  unfold process_path, mbind at 1 2, get_fs, lift.
  destruct (should_exclude (w_fs w) p startpath) as [[|]|e] eqn:Hex;
    [| |discriminate].
  { (* excluded *)
    unfold mbind, set_metrics, ret. intros H; injection H as <- <-. simpl.
    split; [reflexivity|]. right. repeat split.
    intros new [Hex' _]. congruence. }
  unfold mbind at 1.
  destruct (is_file (w_fs w) p) as [[|]|e] eqn:Hfile; [| |discriminate].
  2:{ (* not a file *)
    unfold ret. intros H; injection H as <- <-.
    split; [reflexivity|]. right. repeat split.
    intros new [_ (old & Hl & _)]. unfold is_file in Hfile. rewrite Hl in Hfile.
    discriminate. }
  unfold mbind at 1, set_metrics at 1. cbn [w_fs].
  destruct (is_binary_file (w_fs w) p) eqn:Hbin.
  { (* binary *)
    unfold mbind, set_metrics, ret. intros H; injection H as <- <-. simpl.
    split; [reflexivity|]. right. repeat split.
    intros new [_ (old & Hl & _)]. unfold is_binary_file, read_locale in Hbin.
    rewrite Hl in Hbin. discriminate. }
  set (w0 := {| w_fs := w_fs w; w_backups := w_backups w;
                w_metrics := incr_processed (w_metrics w) |}).
  assert (Hfs0 : w_fs w0 = w_fs w) by reflexivity.
  assert (Hfm0 : fm w0 = fm w) by reflexivity.
  clearbody w0.
  unfold process_candidate, catch, try_update, mbind at 1.
  destruct (prepare copy_ok startpath tree backup_dir p w0) as [w1 r1] eqn:Hprep.
  apply prepare_spec in Hprep as (Hfs1 & Hfm1 & Hr1).
  destruct r1 as [[[content new_content] bs]|e].
  2:{ (* the read or the computation of the new content raised *)
    unfold mbind, set_metrics, ret. intros H; injection H as <- <-. simpl.
    split; [intros; congruence|]. right. split; [|split; [reflexivity|]].
    - intros new [_ (old & Hl & Hn & _)]. rewrite Hfs0 in Hr1.
      now apply (Hr1 old true new).
    - unfold fm in *. simpl. congruence. }
  destruct Hr1 as (old & wr & Hl & -> & Hnew). rewrite Hfs0 in Hl.
  destruct (Str.eqb new_content (universal_newlines old)) eqn:Hsame; cbn [negb].
  { (* no changes needed *)
    unfold mbind, set_metrics, ret. intros H; injection H as <- <-. simpl.
    split; [intros; congruence|]. right. split; [|split; [reflexivity|]].
    - intros new [_ (old' & Hl' & Hn' & Hne & _)].
      rewrite Hl in Hl'. injection Hl' as <-.
      apply str_eqb_eq in Hsame. congruence.
    - unfold fm in *. simpl. congruence. }
  apply str_eqb_false in Hsame.
  pose proof (write_utf8_spec p new_content w1) as Hw.
  rewrite Hfs1, Hfs0, Hl in Hw. unfold mbind at 1.
  destruct wr.
  - destruct (utf8_encodable new_content) eqn:Henc.
    + (* written *)
      destruct Hw as (w2 & -> & Hfm2 & Hl2 & Hframe).
      unfold mbind, set_metrics, ret. intros H; injection H as <- <-. simpl.
      split; [intros q Hq; rewrite (Hframe q Hq); congruence|].
      left. exists new_content. repeat split; try assumption.
      * exists old. repeat split; assumption.
      * unfold fm in *. simpl. congruence.
    + (* the codec refused the text: the file is left truncated *)
      destruct Hw as (w2 & -> & Hfm2 & Hl2 & Hframe).
      unfold mbind, set_metrics, ret. intros H; injection H as <- <-. simpl.
      split; [intros q Hq; rewrite (Hframe q Hq); congruence|].
      right. split; [|split; [reflexivity|]].
      * intros new [_ (old' & Hl' & Hn' & _ & Henc')].
        rewrite Hl in Hl'. injection Hl' as <-. congruence.
      * unfold fm in *. simpl. congruence.
  - (* the file cannot be opened for writing *)
    destruct Hw as (e & ->).
    unfold mbind, set_metrics, ret. intros H; injection H as <- <-. simpl.
    split; [intros; congruence|]. right. split; [|split; [reflexivity|]].
    + intros new [_ (old' & Hl' & _)]. rewrite Hl in Hl'. discriminate.
    + unfold fm in *. simpl. congruence.
Qed.

End Run.

(** ** The whole run *)

Section Report.

Variable copy_ok : path -> bool.
Variables (startpath : path) (tree : str) (backup_dir : option path).

(** The loop over a walk without repetition, started on a world that agrees
    with [t0] on the walk: the list grows by the rewritten paths [R], each
    once and each counted, and each holds its new content at the end. *)
Lemma process_all_spec (t0 : fs) (walk : list path) :
  forall (acc result : list path) (w w' : world),
    NoDup walk ->
    (forall q, In q walk -> lookup (w_fs w) q = lookup t0 q) ->
    process_all copy_ok startpath tree backup_dir walk acc w = (w', Ok result) ->
    exists R,
      result = acc ++ R /\ fm w' = fm w + List.length R /\ NoDup R /\
      (forall p, In p R <-> In p walk /\ exists new, rewrites t0 startpath tree p new) /\
      (forall p new, In p R -> rewrites t0 startpath tree p new ->
                     lookup (w_fs w') p = Some (File (Text new) true)) /\
      (forall q, ~ In q walk -> lookup (w_fs w') q = lookup (w_fs w) q).
Proof.
  induction walk as [|p walk IH]; intros acc result w w' Hnd Hagree Hrun.
  - simpl in Hrun. unfold ret in Hrun. injection Hrun as <- <-.
    exists []. rewrite app_nil_r.
    split; [reflexivity|]. split; [simpl; lia|]. split; [constructor|].
    split; [|split].
    + intros p. simpl. split; [intros []|intros [[] _]].
    + intros p new [].
    + reflexivity.
  - simpl in Hrun. unfold mbind in Hrun.
    destruct (process_path copy_ok startpath tree backup_dir acc p w) as [w1 [acc1|e]] eqn:Hstep;
      [|discriminate].
    apply process_path_step in Hstep as [Hframe Hcases].
    inversion Hnd as [|? ? Hnotin Hnd']; subst.
    assert (Hp : lookup (w_fs w) p = lookup t0 p) by (apply Hagree; now left).
    assert (Hagree1 : forall q, In q walk -> lookup (w_fs w1) q = lookup t0 q).
    { intros q Hq. rewrite Hframe; [apply Hagree; now right|].
      intros ->. contradiction. }
    destruct (IH acc1 result w1 w' Hnd' Hagree1 Hrun)
      as (R & Hres & Hfm & HndR & HinR & Hfinal & Hout).
    assert (HpR : ~ In p R) by (intros H; apply HinR in H as [H _]; contradiction).
    destruct Hcases as [(new & Hrw & -> & Hl1 & Hfm1) | (Hno & -> & Hfm1)].
    + exists (p :: R).
      split; [rewrite Hres, <- app_assoc; reflexivity|].
      split; [simpl; rewrite Hfm, Hfm1; lia|].
      split; [now constructor|].
      split; [|split].
      * intros q. split.
        -- intros [<-|Hq].
           ++ split; [now left|]. exists new.
              apply rewrites_local with (t := w_fs w); [now symmetry|assumption].
           ++ apply HinR in Hq as [Hq Hex]. split; [now right|assumption].
        -- intros [[<-|Hq] Hex]; [now left|right]. apply HinR. now split.
      * intros q new' [<-|Hq] Hrw'.
        -- rewrite Hout by assumption. rewrite Hl1. do 3 f_equal.
           apply rewrites_functional with (t := t0) (startpath := startpath)
                                          (tree := tree) (p := p); [|assumption].
           apply rewrites_local with (t := w_fs w); [now symmetry|assumption].
        -- now apply Hfinal.
      * intros q Hq. rewrite Hout by (intros H; apply Hq; now right).
        apply Hframe. intros ->. apply Hq. now left.
    + exists R.
      split; [assumption|].
      split; [rewrite Hfm, Hfm1; reflexivity|].
      split; [assumption|].
      split; [|split].
      * intros q. split.
        -- intros Hq. apply HinR in Hq as [Hq Hex]. split; [now right|assumption].
        -- intros [[<-|Hq] (new & Hrw)].
           ++ exfalso. apply (Hno new).
              apply rewrites_local with (t := t0); assumption.
           ++ apply HinR. split; [assumption|]. now exists new.
      * assumption.
      * intros q Hq. rewrite Hout by (intros H; apply Hq; now right).
        apply Hframe. intros ->. apply Hq. now left.
Qed.

(** C10. When [update_files_with_tree] returns, [files_modified] has grown
    by the length of the returned list, no path is listed twice, and the
    listed paths are exactly the walked paths that the call rewrote: files
    whose new content differed from the content read, and which hold that
    new content afterwards. *)
Theorem modified_files_report (w w' : world) (result : list path) :
  NoDup (map fst (w_fs w)) ->
  update_files_with_tree copy_ok startpath tree backup_dir w = (w', Ok result) ->
  files_modified (w_metrics w') = files_modified (w_metrics w) + List.length result /\
  NoDup result /\
  forall p, In p result <->
    In p (rglob (w_fs w) startpath) /\
    exists new, rewrites (w_fs w) startpath tree p new /\
                lookup (w_fs w') p = Some (File (Text new) true).
Proof.
  intros Hkeys Hrun. unfold update_files_with_tree, mbind, get_fs in Hrun.
  assert (Hnd : NoDup (rglob (w_fs w) startpath)) by (now apply NoDup_filter).
  destruct (@process_all_spec (w_fs w) (rglob (w_fs w) startpath) [] result w w'
              Hnd (fun q _ => eq_refl) Hrun)
    as (R & Hres & Hfm & HndR & HinR & Hfinal & _).
  simpl in Hres. subst R.
  split; [exact Hfm|]. split; [exact HndR|].
  intros p. split.
  - intros Hp. pose proof Hp as Hp'. apply HinR in Hp' as [Hwalk (new & Hrw)].
    split; [assumption|]. exists new. split; [assumption|]. now apply Hfinal.
  - intros [Hwalk (new & Hrw & _)]. apply HinR. split; [assumption|now exists new].
Qed.

End Report.

(** ** A file whose processing fails *)

Section Failure.

Variable copy_ok : path -> bool.
Variables (startpath : path) (tree : str) (backup_dir : option path).





End Failure.

(** ** Runs on concrete file systems *)

Lemma modified_files_report_witness :
  let root := abs [lit "proj"] in
  let p := abs [lit "proj"; lit "a.py"] in
  let tree := lit "proj/" ++ [NL] ++ CORNER ++ lit "a.py" in
  let w := {| w_fs := [(root, Dir); (p, File (Text (lit "x = 1")) true)];
              w_backups := []; w_metrics := metrics0 |} in
  let run := update_files_with_tree (fun _ => true) root tree None w in
  NoDup (map fst (w_fs w)) /\
  run = (fst run, Ok [p]) /\
  (files_modified (w_metrics (fst run))
     = files_modified (w_metrics w) + List.length [p] /\
   NoDup [p] /\
   forall q, In q [p] <->
     In q (rglob (w_fs w) root) /\
     exists new, rewrites (w_fs w) root tree q new /\
                 lookup (w_fs (fst run)) q = Some (File (Text new) true)).
Proof.
  intros root p tree w run.
  assert (Hnd : NoDup (map fst (w_fs w))).
  { repeat constructor; simpl; intuition discriminate. }
  assert (Hrun : run = (fst run, Ok [p])) by (vm_compute; reflexivity).
  split; [exact Hnd|]. split; [exact Hrun|].
  exact (@modified_files_report (fun _ => true) root tree None w (fst run) [p] Hnd Hrun).
Defined.



(** C1 on the code.  A Markdown file that starts with an empty line: the
    first application puts the block in front; the second finds the block,
    and the white space matched after the end marker takes the empty line
    with it.  The two contents differ. *)
Lemma apply_map_twice_differs :
  let block := updated_map (get_comment_style (lit ".md")) (lit "r/") (lit "a.md") in
  apply_map (lit "a.md") (lit "r/") ([NL] ++ lit "hello")
    = Ok (block ++ [NL] ++ lit "hello") /\
  apply_map (lit "a.md") (lit "r/") (block ++ [NL] ++ lit "hello")
    = Ok (block ++ lit "hello") /\
  block ++ [NL] ++ lit "hello" <> block ++ lit "hello".
Proof.
  split; [vm_compute; reflexivity|]. split; [vm_compute; reflexivity|].
  apply str_neq_by_eqb. vm_compute. reflexivity.
Qed.

(** C2 on the code.  The file holds a map; the tree now names a file
    [a\tb].  The block that reaches the file has a tab where the name has a
    backslash and a [t]: it is one character shorter than the encoded block,
    so what is inserted is not the encoded block. *)
Lemma replaced_block_is_not_the_encoded_block :
  let st := get_comment_style (lit ".py") in
  let content := updated_map st (lit "r/") (lit "a.py") ++ lit "x = 1" in
  let tree := lit "r/" ++ [NL] ++ CORNER ++ lit "a\tb" in
  let block := updated_map st tree (lit "a.py") in
  exists got,
    literal_replacement st tree (lit "a.py") content = Some (block ++ lit "x = 1") /\
    updated_content st tree (lit "a.py") content = Ok got /\
    S (List.length got) = List.length (block ++ lit "x = 1") /\
    In 9%N got /\ ~ In 9%N (block ++ lit "x = 1").
Proof.
  eexists. split; [vm_compute; reflexivity|]. split; [vm_compute; reflexivity|].
  split; [vm_compute; reflexivity|]. split.
  - vm_compute. tauto.
  - vm_compute. intuition discriminate.
Qed.

(** C3 on the code.  One Markdown file that starts with an empty line, the
    tree unchanged: the first run rewrites it, and so does the second; only
    the third finds nothing to change. *)
Lemma second_run_modifies_again :
  let root := abs [lit "proj"] in
  let p := abs [lit "proj"; lit "notes.md"] in
  let w0 := {| w_fs := [(root, Dir); (p, File (Text ([NL] ++ lit "hello")) true)];
               w_backups := []; w_metrics := metrics0 |} in
  let run := fun w =>
    match generate_tree 1000 (w_fs w) root with
    | Ok tree => update_files_with_tree (fun _ => true) root tree None w
    | Raise e => (w, Raise e)
    end in
  let r1 := run w0 in
  let r2 := run (fst r1) in
  let r3 := run (fst r2) in
  generate_tree 1000 (w_fs (fst r1)) root = generate_tree 1000 (w_fs w0) root /\
  snd r1 = Ok [p] /\ files_modified (w_metrics (fst r1)) = 1 /\
  snd r2 = Ok [p] /\ files_modified (w_metrics (fst r2)) = 2 /\
  snd r3 = Ok [] /\ files_modified (w_metrics (fst r3)) = 2.
Proof.
  repeat split; vm_compute; reflexivity.
Qed.

(** C9 on the code.  The project directory is called [L-- r] (its name
    starts with the corner connector) and holds one file [b].  Both lines of
    the tree start with the connector, so both are in the trailing run; the
    pass writes the text of the first line to the last position and the
    text of the second, indented, to the first. *)
Lemma trailing_run_is_reversed :
  let root := abs [CORNER ++ lit "r"] in
  let t := [(root, Dir); (abs [CORNER ++ lit "r"; lit "b"], File (Text (lit "x")) true)] in
  add_to_tree 1000 t root root [] [Path.name root ++ [SLASH]]
    = Ok [CORNER ++ lit "r/"; CORNER ++ lit "b"] /\
  tree_lines 1000 t root = Ok [BLANK ++ CORNER ++ lit "b"; CORNER ++ lit "r/"] /\
  final_curved_lines [CORNER ++ lit "r/"; CORNER ++ lit "b"]
    = Ok [BLANK ++ CORNER ++ lit "b"; CORNER ++ lit "r/"].
Proof.
  repeat split; vm_compute; reflexivity.
Qed.

(** ** The backup destination *)











(** ** Digests collide *)











(** *** The long names *)










Lemma rfind_dot_none (s : str) : (forall c, In c s -> c <> DOT) -> rfind_dot s = None.
Proof.
  induction s as [|x s IH]; intros H; [reflexivity|]. simpl.
  rewrite IH by (intros c Hc; apply H; now right).
  destruct (N.eqb x DOT) eqn:E; [|reflexivity].
  apply N.eqb_eq in E. exfalso. apply (H x); [now left|assumption].
Qed.


(** *** No exclusion pattern matches a long name *)

Lemma In_skipn (A : Type) (k : nat) (l : list A) (x : A) : In x (skipn k l) -> In x l.
Proof.
  revert l. induction k as [|k IH]; intros [|y l]; simpl; auto.
Qed.






(** ** A block without backslash is inserted as it stands *)

Lemma parse_literal (ngroups : nat) (t : str) :
  ~ In BACKSLASH t -> Re.parse ngroups TNormal t = Ok (map TChar t).
Proof.
  induction t as [|c t IH]; intros Hno; [reflexivity|].
  simpl. unfold Re.normal.
  destruct (N.eqb c BACKSLASH) eqn:E.
  - apply N.eqb_eq in E. exfalso. apply Hno. now left.
  - rewrite IH by (intros H; apply Hno; now right). reflexivity.
Qed.

Lemma expand_literal (t subject : str) (m : match_obj) :
  Re.expand (map TChar t) subject m = t.
Proof.
  unfold Re.expand. induction t as [|c t IH]; [reflexivity|]. simpl. now rewrite IH.
Qed.

(** A match ends at or after the place it starts, inside the subject. *)
Lemma match_here_bounds (p : pattern) :
  forall (s : str) (pos : nat) (caps caps' : spans) (e : nat),
    match_here p s pos caps = Some (e, caps') -> pos <= e <= pos + List.length s.
Proof.
  induction p as [|a p IH]; intros s pos caps caps' e H.
  - simpl in H. injection H as <- _. lia.
  - destruct a as [c| | |g|g]; simpl in H.
    + destruct s as [|x s]; [discriminate|].
      destruct (N.eqb x c); [|discriminate].
      apply IH in H. simpl. lia.
    + revert pos H. induction s as [|x s IHs]; intros pos H.
      * destruct (match_here p [] pos caps) as [r|] eqn:E; [|discriminate].
        injection H as ->. now apply IH in E.
      * destruct (match_here p (x :: s) pos caps) as [r|] eqn:E.
        -- injection H as ->. now apply IH in E.
        -- apply IHs in H. simpl. lia.
    + revert pos H. induction s as [|x s IHs]; intros pos H.
      * now apply IH in H.
      * destruct (is_space x).
        -- match type of H with
           | match ?g with _ => _ end = _ => destruct g as [r|] eqn:E
           end.
           ++ injection H as ->. apply IHs in E. simpl. lia.
           ++ now apply IH in H.
        -- now apply IH in H.
    + now apply IH in H.
    + now apply IH in H.
Qed.

Lemma search_from_bounds (p : pattern) (s : str) :
  forall (pos : nat) (m : match_obj),
    search_from p s pos = Some m ->
    pos <= m_start m /\ m_start m <= m_end m <= pos + List.length s.
Proof.
  induction s as [|x s IH]; intros pos m H; simpl in H.
  - destruct (match_here p [] pos []) as [[e caps]|] eqn:E; [|discriminate].
    injection H as <-. simpl. apply match_here_bounds in E. simpl in E. lia.
  - destruct (match_here p (x :: s) pos []) as [[e caps]|] eqn:E.
    + injection H as <-. apply match_here_bounds in E.
      cbn [m_start m_end]. lia.
    + apply IH in H. cbn [List.length]. lia.
Qed.

(** Content preservation, where it holds.  When the new block holds no
    backslash: a file without a map gets the block in front of its content;
    in a file with a map the first match, which lies inside the content, is
    replaced by the block and what stands before and after the match is
    kept, so that the lengths add up. *)
Theorem block_without_backslash_inserted (st : style) (tree name content : str) :
  ~ In BACKSLASH (updated_map st tree name) ->
  match search (map_pattern st) content with
  | None => updated_content st tree name content = Ok (updated_map st tree name ++ content)
  | Some m =>
      m_start m <= m_end m <= List.length content /\
      updated_content st tree name content
        = Ok (firstn (m_start m) content ++ updated_map st tree name
                ++ skipn (m_end m) content) /\
      forall new, updated_content st tree name content = Ok new ->
        List.length new + (m_end m - m_start m)
          = List.length content + List.length (updated_map st tree name)
  end.
Proof.
  intros Hno. unfold updated_content.
  destruct (search (map_pattern st) content) as [m|] eqn:Hs; [|reflexivity].
  unfold subn1, parse_template.
  rewrite parse_literal by exact Hno. cbn [bind].
  rewrite Hs. cbn [bind Nat.eqb]. rewrite expand_literal.
  pose proof (search_from_bounds _ _ _ Hs) as [_ Hb]. simpl in Hb.
  split; [exact Hb|]. split; [reflexivity|].
  intros new H. injection H as <-.
  rewrite !length_app, length_firstn, length_skipn. lia.
Qed.

Lemma block_without_backslash_inserted_witness :
  let st := get_comment_style (lit ".py") in
  let content := lit "import os" ++ [NL] ++ updated_map st (lit "old/") (lit "a.py")
                   ++ lit "x = 1" in
  ~ In BACKSLASH (updated_map st (lit "r/") (lit "a.py")) /\
  match search (map_pattern st) content with
  | None => updated_content st (lit "r/") (lit "a.py") content
            = Ok (updated_map st (lit "r/") (lit "a.py") ++ content)
  | Some m =>
      m_start m <= m_end m <= List.length content /\
      updated_content st (lit "r/") (lit "a.py") content
        = Ok (firstn (m_start m) content ++ updated_map st (lit "r/") (lit "a.py")
                ++ skipn (m_end m) content) /\
      forall new, updated_content st (lit "r/") (lit "a.py") content = Ok new ->
        List.length new + (m_end m - m_start m)
          = List.length content + List.length (updated_map st (lit "r/") (lit "a.py"))
  end.
Proof.
  intros st content.
  assert (H : ~ In BACKSLASH (updated_map st (lit "r/") (lit "a.py"))).
  { vm_compute. intuition discriminate. }
  split; [exact H|].
  exact (@block_without_backslash_inserted st (lit "r/") (lit "a.py") content H).
Defined.

(** ** The last pass of [generate_tree] *)

Lemma startswith_skipn (p s : str) :
  startswith s p = true -> p ++ skipn (List.length p) s = s.
Proof.
  revert s. induction p as [|y p IH]; intros s H; [reflexivity|].
  destruct s as [|x s]; simpl in H; [discriminate|].
  apply andb_prop in H as [E H]. apply N.eqb_eq in E. subst y.
  simpl. f_equal. now apply IH.
Qed.

Lemma split_once_prefix (sep s : str) :
  startswith s sep = true ->
  split_once sep s = Some ([], skipn (List.length sep) s).
Proof. intros H. destruct s; cbn [split_once]; rewrite H; reflexivity. Qed.

Lemma assign_middle (A : Type) (a b : list A) (x y : A) :
  assign (List.length a) x (a ++ y :: b) = Ok (a ++ x :: b).
Proof.
  induction a as [|z a IH]; [reflexivity|].
  cbn [List.length app assign]. rewrite IH. reflexivity.
Qed.

Lemma take_while_all (A : Type) (f : A -> bool) (l : list A) :
  Forall (fun x => f x = true) (take_while f l).
Proof.
  induction l as [|x l IH]; simpl; [constructor|].
  destruct (f x) eqn:E; constructor; assumption.
Qed.

Lemma take_while_split (A : Type) (f : A -> bool) (l : list A) :
  exists rest, l = take_while f l ++ rest.
Proof.
  induction l as [|x l [rest IH]]; simpl; [now exists []|].
  destruct (f x).
  - exists rest. simpl. now f_equal.
  - now exists (x :: l).
Qed.

Lemma firstn_length_app (A : Type) (a b : list A) :
  firstn (List.length a) (a ++ b) = a.
Proof. induction a as [|x a IH]; simpl; [now destruct b|now f_equal]. Qed.

(** A list of lines is its trailing run behind what stands before it. *)
Lemma before_run_app (tree : list str) :
  tree = before_run tree ++ trailing_run tree.
Proof.
  unfold before_run, trailing_run.
  destruct (take_while_split (fun line => startswith line CORNER) (rev tree))
    as [rest Hr].
  set (tw := take_while _ (rev tree)) in *. clearbody tw.
  assert (Ht : tree = rev rest ++ rev tw).
  { rewrite <- rev_app_distr, <- Hr, rev_involutive. reflexivity. }
  clear Hr. subst tree.
  replace (List.length (rev rest ++ rev tw) - List.length (rev tw))
    with (List.length (rev rest)) by (rewrite length_app; lia).
  now rewrite firstn_length_app.
Qed.

(** The loop of the pass, after the lines of [done] have been written: the
    lines of [todo] go, indented by their place, to the positions before
    [tail], the last one first. *)
Lemma curve_loop (total : nat) (todo : list str) :
  forall (d : nat) (pre mid tail : list str),
    Forall (fun line => startswith line CORNER = true) todo ->
    List.length mid = List.length todo ->
    List.length tail = d ->
    total = List.length pre + List.length mid + d ->
    fold_left
      (fun acc '(i, line) =>
         try tree' <- acc in
         match split_once CORNER line with
         | Some (_, text) =>
             assign (total - i - 1) (times BLANK i ++ CORNER ++ text) tree'
         | None => Raise IndexError
         end)
      (combine (seq d (List.length todo)) todo) (Ok (pre ++ mid ++ tail))
    = Ok (pre ++ rev (map (fun '(i, line) => times BLANK i ++ line)
                        (combine (seq d (List.length todo)) todo)) ++ tail).
Proof.
  induction todo as [|r todo IH]; intros d pre mid tail Hall Hmid Htail Htotal.
  - destruct mid; [reflexivity|discriminate].
  - destruct (exists_last (l := mid)) as [mid' [y ->]].
    { intros ->. discriminate. }
    rewrite length_app in Hmid, Htotal. cbn [List.length] in Hmid, Htotal.
    pose proof (Forall_inv Hall) as Hr. cbv beta in Hr.
    pose proof (Forall_inv_tail Hall) as Hall'.
    cbn [List.length seq combine fold_left map rev bind].
    rewrite (split_once_prefix _ _ Hr).
    rewrite (startswith_skipn _ _ Hr).
    replace (total - d - 1) with (List.length (pre ++ mid'))
      by (rewrite length_app; lia).
    replace (pre ++ (mid' ++ [y]) ++ tail) with ((pre ++ mid') ++ y :: tail)
      by (now rewrite <- !app_assoc).
    rewrite assign_middle, <- app_assoc.
    rewrite <- (app_assoc (rev _) [_] tail). cbn [app].
    apply (IH (S d) pre mid' ((times BLANK d ++ r) :: tail));
      [assumption|lia|cbn [List.length]; lia|lia].
Qed.

Lemma final_curved_lines_eq (tree : list str) :
  final_curved_lines tree = Ok (curved tree).
Proof.
  unfold final_curved_lines, curved.
  destruct (Nat.ltb 1 (List.length tree)); [|reflexivity].
  pose proof (before_run_app tree) as Ht.
  unfold indented, enumerate. fold (trailing_run tree).
  assert (Hall : Forall (fun line => startswith line CORNER = true)
                   (trailing_run tree)).
  { unfold trailing_run. apply Forall_rev. apply take_while_all. }
  assert (Hlen : List.length tree
                 = List.length (before_run tree)
                   + List.length (trailing_run tree) + 0).
  { rewrite Ht at 1. rewrite length_app. lia. }
  pose proof (curve_loop (before_run tree) (trailing_run tree) []
                Hall eq_refl eq_refl Hlen) as H.
  rewrite !app_nil_r in H. rewrite <- Ht in H. exact H.
Qed.

Lemma indented_length (run : list str) :
  List.length (indented run) = List.length run.
Proof.
  unfold indented, enumerate.
  rewrite length_map, length_combine, length_seq. lia.
Qed.

(** The last pass of [generate_tree] never fails and keeps the number of
    lines: the lines before the trailing run of corner lines stay, and the
    run is replaced by its own lines in the opposite order, the line at
    place [i] of the run behind [i] blank indents. *)
Theorem final_curved_lines_spec (tree : list str) :
  final_curved_lines tree = Ok (curved tree) /\
  List.length (curved tree) = List.length tree.
Proof.
  split; [apply final_curved_lines_eq|].
  unfold curved. destruct (Nat.ltb 1 (List.length tree)); [|reflexivity].
  rewrite (before_run_app tree) at 3.
  now rewrite !length_app, length_rev, indented_length.
Qed.

(** Where at most one line at the end starts with the corner connector, the
    last pass of [generate_tree] changes nothing. *)
Theorem final_curved_lines_short_run (tree : list str) :
  List.length (trailing_run tree) <= 1 ->
  final_curved_lines tree = Ok tree.
Proof.
  intros H. rewrite final_curved_lines_eq. f_equal.
  unfold curved. destruct (Nat.ltb 1 (List.length tree)); [|reflexivity].
  rewrite (before_run_app tree) at 3. f_equal.
  destruct (trailing_run tree) as [|r [|r' run]]; [reflexivity|reflexivity|].
  simpl in H. lia.
Qed.

Lemma final_curved_lines_short_run_witness :
  let tree := [lit "proj/"; TEE ++ lit "a.py"; CORNER ++ lit "b.py"] in
  List.length (trailing_run tree) <= 1 /\ final_curved_lines tree = Ok tree.
Proof.
  intros tree.
  assert (H : List.length (trailing_run tree) <= 1) by (vm_compute; lia).
  split; [exact H|]. exact (@final_curved_lines_short_run tree H).
Defined.

(** ** Paths the run passes over *)

Section Skipped.

Variable copy_ok : path -> bool.
Variables (startpath : path) (tree : str) (backup_dir : option path).
Variable p : path.

(** [keeps] is a condition on the entry of [p] under which the step on [p]
    changes neither the file system nor the list. *)
Variable keeps : option node -> Prop.
Hypothesis step_keeps :
  forall (acc acc' : list path) (w w' : world),
    keeps (lookup (w_fs w) p) ->
    process_path copy_ok startpath tree backup_dir acc p w = (w', Ok acc') ->
    w_fs w' = w_fs w /\ acc' = acc.

Lemma process_all_keeps (walk : list path) :
  forall (acc result : list path) (w w' : world),
    keeps (lookup (w_fs w) p) ->
    process_all copy_ok startpath tree backup_dir walk acc w = (w', Ok result) ->
    lookup (w_fs w') p = lookup (w_fs w) p /\ (In p result -> In p acc).
Proof.
  induction walk as [|q walk IH]; intros acc result w w' Hk Hrun.
  - simpl in Hrun. unfold ret in Hrun. injection Hrun as <- <-. now split.
  - simpl in Hrun. unfold mbind in Hrun.
    destruct (process_path copy_ok startpath tree backup_dir acc q w)
      as [w1 [acc1|e]] eqn:Hstep; [|discriminate].
    destruct (Path.eqb q p) eqn:Hqp.
    + apply path_eqb_eq in Hqp. subst q.
      destruct (@step_keeps _ _ _ _ Hk Hstep) as [Hfs ->].
      rewrite <- Hfs in Hk.
      destruct (IH _ _ _ _ Hk Hrun) as [Hl Hin].
      split; [now rewrite Hl, Hfs|exact Hin].
    + assert (Hne : p <> q).
      { intros ->. rewrite (proj2 (path_eqb_eq q q) eq_refl) in Hqp. discriminate. }
      apply process_path_step in Hstep as [Hframe Hcases].
      pose proof (Hframe p Hne) as Hp. rewrite <- Hp in Hk.
      destruct (IH _ _ _ _ Hk Hrun) as [Hl Hin].
      split; [now rewrite Hl|].
      intros H. apply Hin in H.
      destruct Hcases as [(new & _ & -> & _)|(_ & -> & _)]; [|exact H].
      apply in_app_or in H as [H|[H|[]]]; [exact H|]. now subst q.
Qed.

End Skipped.


Lemma binary_step_keeps (copy_ok : path -> bool) (startpath : path) (tree : str)
  (backup_dir : option path) (p : path) :
  forall (acc acc' : list path) (w w' : world),
    (exists size wr, lookup (w_fs w) p = Some (File (Binary size) wr)) ->
    process_path copy_ok startpath tree backup_dir acc p w = (w', Ok acc') ->
    w_fs w' = w_fs w /\ acc' = acc.
Proof.
  intros acc acc' w w' (size & wr & Hl).
  unfold process_path, mbind at 1 2, get_fs, lift.
  destruct (should_exclude (w_fs w) p startpath) as [[|]|e]; [| |discriminate].
  - unfold mbind, set_metrics, ret. intros H. injection H as <- <-. now split.
  - unfold mbind at 1. unfold is_file. rewrite Hl.
    unfold mbind at 1, set_metrics at 1. cbn [w_fs].
    unfold is_binary_file, read_locale. rewrite Hl. cbn [is_ok negb].
    unfold mbind, set_metrics, ret. intros H. injection H as <- <-. now split.
Qed.



(** A file that cannot be read as text is passed over: it is not in the list
    the run returns and it is after the run as it was before. *)
Theorem binary_file_untouched (copy_ok : path -> bool) (startpath : path)
  (tree : str) (backup_dir : option path) (p : path) (size : N) (wr : bool)
  (w w' : world) (result : list path) :
  lookup (w_fs w) p = Some (File (Binary size) wr) ->
  update_files_with_tree copy_ok startpath tree backup_dir w = (w', Ok result) ->
  ~ In p result /\ lookup (w_fs w') p = lookup (w_fs w) p.
Proof.
  intros Hbin Hrun.
  unfold update_files_with_tree, mbind, get_fs in Hrun.
  assert (Hk : exists size wr, lookup (w_fs w) p = Some (File (Binary size) wr))
    by (now exists size, wr).
  destruct (@process_all_keeps copy_ok startpath tree backup_dir p
              (fun n => exists size wr, n = Some (File (Binary size) wr))
              (@binary_step_keeps copy_ok startpath tree backup_dir p)
              _ _ _ _ _ Hk Hrun) as [Hl Hnot].
  split; [|exact Hl]. intros H. exact (Hnot H).
Qed.

Lemma binary_file_untouched_witness :
  let root := abs [lit "proj"] in
  let p := abs [lit "proj"; lit "logo.dat"] in
  let q := abs [lit "proj"; lit "main.py"] in
  let tree := lit "proj/" ++ [NL] ++ TEE ++ lit "logo.dat" ++ [NL]
                ++ CORNER ++ lit "main.py" in
  let w := {| w_fs := [(root, Dir); (p, File (Binary 2048) true);
                       (q, File (Text (lit "x = 1")) true)];
              w_backups := []; w_metrics := metrics0 |} in
  let run := update_files_with_tree (fun _ => true) root tree None w in
  lookup (w_fs w) p = Some (File (Binary 2048) true) /\
  run = (fst run, Ok [q]) /\
  (~ In p [q] /\ lookup (w_fs (fst run)) p = lookup (w_fs w) p).
Proof.
  intros root p q tree w run.
  assert (Hl : lookup (w_fs w) p = Some (File (Binary 2048) true)) by reflexivity.
  assert (Hrun : run = (fst run, Ok [q])) by (vm_compute; reflexivity).
  split; [exact Hl|]. split; [exact Hrun|].
  exact (@binary_file_untouched (fun _ => true) root tree None p 2048%N true
           w (fst run) [q] Hl Hrun).
Defined.

(** ** What the pattern of the map finds *)

Lemma lazy_unfold (p : pattern) (s : str) (pos : nat) (caps : spans) :
  match_here (LazyAny :: p) s pos caps
  = match match_here p s pos caps with
    | Some r => Some r
    | None =>
        match s with
        | [] => None
        | _ :: s' => match_here (LazyAny :: p) s' (S pos) caps
        end
    end.
Proof. destruct s; reflexivity. Qed.

Lemma greedy_unfold (p : pattern) (s : str) (pos : nat) (caps : spans) :
  match_here (GreedySpace :: p) s pos caps
  = match s with
    | x :: s' =>
        if is_space x then
          match match_here (GreedySpace :: p) s' (S pos) caps with
          | Some r => Some r
          | None => match_here p s pos caps
          end
        else match_here p s pos caps
    | [] => match_here p s pos caps
    end.
Proof. destruct s; reflexivity. Qed.

(** The matcher is sound: what it matches is a text of the pattern, and the
    match ends where that text ends. *)
Lemma match_here_sound (p : pattern) :
  forall (s : str) (pos : nat) (caps caps' : spans) (e : nat),
    match_here p s pos caps = Some (e, caps') ->
    exists w rest, s = w ++ rest /\ Matches p w /\ e = pos + List.length w.
Proof.
  induction p as [|a p IH]; intros s pos caps caps' e H.
  - simpl in H. injection H as <- _. exists [], s.
    split; [reflexivity|]. split; [constructor|]. simpl. lia.
  - destruct a as [c| | |g|g].
    + simpl in H. destruct s as [|x s]; [discriminate|].
      destruct (N.eqb x c) eqn:E; [|discriminate]. apply N.eqb_eq in E. subst x.
      apply IH in H as (w & rest & -> & Hm & ->).
      exists (c :: w), rest. split; [reflexivity|]. split; [now constructor|].
      simpl. lia.
    + assert (G : exists a w rest, s = a ++ w ++ rest /\ Matches p w /\
                    e = pos + List.length a + List.length w).
      { revert pos H. induction s as [|x s IHs]; intros pos H;
          rewrite lazy_unfold in H;
          destruct (match_here p _ pos caps) as [[e1 c1]|] eqn:E.
        - injection H as <- <-. apply IH in E as (w & rest & Hs & Hm & ->).
          exists [], w, rest. split; [exact Hs|]. split; [exact Hm|]. simpl. lia.
        - discriminate.
        - injection H as <- <-. apply IH in E as (w & rest & Hs & Hm & ->).
          exists [], w, rest. split; [exact Hs|]. split; [exact Hm|]. simpl. lia.
        - apply IHs in H as (a & w & rest & -> & Hm & ->).
          exists (x :: a), w, rest. split; [reflexivity|]. split; [exact Hm|].
          simpl. lia. }
      destruct G as (a & w & rest & -> & Hm & ->).
      exists (a ++ w), rest. rewrite <- app_assoc. split; [reflexivity|].
      split; [now constructor|]. rewrite length_app. lia.
    + assert (G : exists a w rest, s = a ++ w ++ rest /\ forallb is_space a = true /\
                    Matches p w /\ e = pos + List.length a + List.length w).
      { revert pos H. induction s as [|x s IHs]; intros pos H;
          rewrite greedy_unfold in H.
        - apply IH in H as (w & rest & Hs & Hm & ->).
          exists [], w, rest. split; [exact Hs|]. split; [reflexivity|].
          split; [exact Hm|]. simpl. lia.
        - assert (Hhere : match_here p (x :: s) pos caps = Some (e, caps') ->
                          exists a w rest, x :: s = a ++ w ++ rest /\
                            forallb is_space a = true /\ Matches p w /\
                            e = pos + List.length a + List.length w).
          { intros E. apply IH in E as (w & rest & Hs & Hm & ->).
            exists [], w, rest. split; [exact Hs|]. split; [reflexivity|].
            split; [exact Hm|]. simpl. lia. }
          destruct (is_space x) eqn:Hx; [|now apply Hhere].
          destruct (match_here (GreedySpace :: p) s (S pos) caps) as [[e1 c1]|] eqn:E;
            [|now apply Hhere].
          injection H as <- <-.
          apply IHs in E as (a & w & rest & -> & Ha & Hm & ->).
          exists (x :: a), w, rest. split; [reflexivity|].
          split; [simpl; now rewrite Hx|]. split; [exact Hm|]. simpl. lia. }
      destruct G as (a & w & rest & -> & Ha & Hm & ->).
      exists (a ++ w), rest. rewrite <- app_assoc. split; [reflexivity|].
      split; [now constructor|]. rewrite length_app. lia.
    + simpl in H. apply IH in H as (w & rest & -> & Hm & ->).
      exists w, rest. split; [reflexivity|]. split; [now constructor|reflexivity].
    + simpl in H. apply IH in H as (w & rest & -> & Hm & ->).
      exists w, rest. split; [reflexivity|]. split; [now constructor|reflexivity].
Qed.


Lemma search_from_sound (p : pattern) (s : str) :
  forall (pos : nat) (m : match_obj),
    search_from p s pos = Some m ->
    exists pre w rest,
      s = pre ++ w ++ rest /\ Matches p w /\
      m_start m = pos + List.length pre /\ m_end m = m_start m + List.length w.
Proof.
  induction s as [|x s IH]; intros pos m H; simpl in H.
  - destruct (match_here p [] pos []) as [[e caps]|] eqn:E; [|discriminate].
    injection H as <-. apply match_here_sound in E as (w & rest & Hs & Hm & ->).
    exists [], w, rest. cbn [m_start m_end List.length app].
    split; [exact Hs|]. split; [exact Hm|]. lia.
  - destruct (match_here p (x :: s) pos []) as [[e caps]|] eqn:E.
    + injection H as <-. apply match_here_sound in E as (w & rest & Hs & Hm & ->).
      exists [], w, rest. cbn [m_start m_end List.length app].
      split; [exact Hs|]. split; [exact Hm|]. lia.
    + apply IH in H as (pre & w & rest & -> & Hm & Hb & He).
      exists (x :: pre), w, rest. cbn [List.length app].
      split; [reflexivity|]. split; [exact Hm|]. lia.
Qed.



Lemma Matches_lits_inv (s : str) (p : pattern) (w : str) :
  Matches (map Lit s ++ p) w -> exists w', w = s ++ w' /\ Matches p w'.
Proof.
  revert w. induction s as [|c s IH]; intros w H.
  - now exists w.
  - simpl in H. inversion H as [|c' p' w0 Hm| | | |]; subst.
    apply IH in Hm as (w' & -> & Hm). now exists w'.
Qed.

Lemma fold_left_append (A : Type) (f : A -> str) (l : list A) (h : str) :
  fold_left (fun acc x => acc ++ f x) l h = h ++ List.concat (map f l).
Proof.
  revert h. induction l as [|x l IH]; intros h; simpl.
  - now rewrite app_nil_r.
  - now rewrite IH, <- app_assoc.
Qed.

(** The block, piece by piece. *)
Lemma updated_map_eq (comment_start comment_middle comment_end tree name : str) :
  updated_map (comment_start, comment_middle, comment_end) tree name
  = comment_start ++ lit " Repository Map:"
      ++ ([NL] ++ List.concat (map (fun line => comment_middle ++ [SPACE] ++ line ++ [NL])
                            (split_on NL tree)))
      ++ comment_middle ++ lit " File:" ++ ([SPACE] ++ name) ++ [NL]
      ++ (if nonempty comment_end then comment_end ++ [NL] else []).
Proof.
  unfold updated_map.
  rewrite (fold_left_append
             (fun line => comment_middle ++ [SPACE] ++ line ++ [NL])).
  change (lit " File: ") with (lit " File:" ++ [SPACE]).
  destruct (nonempty comment_end); repeat rewrite <- app_assoc;
    [reflexivity|now rewrite app_nil_r].
Qed.

Lemma map_pattern_eq (comment_start comment_middle comment_end : str) :
  map_pattern (comment_start, comment_middle, comment_end)
  = [Open 1] ++ map Lit comment_start ++ map Lit (lit " Repository Map:")
      ++ [LazyAny] ++ map Lit comment_middle ++ map Lit (lit " File:")
      ++ [LazyAny; Lit NL]
      ++ (if nonempty comment_end
          then [Close 1] ++ [Open 2] ++ map Lit comment_end ++ [GreedySpace; Close 2]
          else [Close 1]).
Proof.
  unfold map_pattern, escape. cbv zeta.
  destruct (nonempty comment_end); repeat rewrite <- app_assoc; reflexivity.
Qed.




Lemma slice_middle (pre w rest : str) :
  slice (pre ++ w ++ rest) (List.length pre) (List.length pre + List.length w) = w.
Proof.
  unfold slice.
  replace (List.length pre + List.length w - List.length pre) with (List.length w) by lia.
  rewrite skipn_app, skipn_all, Nat.sub_diag. cbn [skipn app].
  apply firstn_length_app.
Qed.

Lemma Matches_nil_inv (w : str) : Matches [] w -> w = [].
Proof. now inversion 1. Qed.

Lemma Matches_lit_inv (c : char) (p : pattern) (w : str) :
  Matches (Lit c :: p) w -> exists w', w = c :: w' /\ Matches p w'.
Proof. inversion 1; subst; eauto. Qed.

Lemma Matches_any_inv (p : pattern) (w : str) :
  Matches (LazyAny :: p) w -> exists a w', w = a ++ w' /\ Matches p w'.
Proof. inversion 1; subst; eauto. Qed.

Lemma Matches_space_inv (p : pattern) (w : str) :
  Matches (GreedySpace :: p) w ->
  exists a w', w = a ++ w' /\ forallb is_space a = true /\ Matches p w'.
Proof. inversion 1; subst; eauto. Qed.

Lemma Matches_open_inv (g : nat) (p : pattern) (w : str) :
  Matches (Open g :: p) w -> Matches p w.
Proof. now inversion 1. Qed.

Lemma Matches_close_inv (g : nat) (p : pattern) (w : str) :
  Matches (Close g :: p) w -> Matches p w.
Proof. now inversion 1. Qed.

(** What the search takes for an existing map: a text that starts with the
    start marker and [ Repository Map:], goes on to the middle marker and
    [ File:], ends with the next line feed and, for a style with an end
    marker, with that marker and the white space behind it.  Nothing else is
    ever replaced. *)
Theorem matched_text_is_a_map (comment_start comment_middle comment_end : str)
  (content : str) (m : match_obj) :
  search (map_pattern (comment_start, comment_middle, comment_end)) content = Some m ->
  exists a b sp,
    group content m 0
      = comment_start ++ lit " Repository Map:" ++ a
          ++ comment_middle ++ lit " File:" ++ b ++ [NL]
          ++ (if nonempty comment_end then comment_end ++ sp else []) /\
    forallb is_space sp = true.
Proof.
  intros Hs. apply search_from_sound in Hs as (pre & w & rest & -> & Hm & Hb & He).
  cbn [group]. rewrite He, Hb. cbn [Nat.add]. rewrite slice_middle.
  rewrite map_pattern_eq in Hm.
  apply Matches_open_inv in Hm.
  apply Matches_lits_inv in Hm as (w1 & -> & Hm).
  apply Matches_lits_inv in Hm as (w2 & -> & Hm).
  apply Matches_any_inv in Hm as (a & w3 & -> & Hm).
  apply Matches_lits_inv in Hm as (w4 & -> & Hm).
  apply Matches_lits_inv in Hm as (w5 & -> & Hm).
  apply Matches_any_inv in Hm as (b & w6 & -> & Hm).
  apply Matches_lit_inv in Hm as (w7 & -> & Hm).
  exists a, b.
  destruct (nonempty comment_end).
  - apply Matches_close_inv, Matches_open_inv in Hm.
    apply Matches_lits_inv in Hm as (w8 & -> & Hm).
    apply Matches_space_inv in Hm as (sp & w9 & -> & Hsp & Hm).
    apply Matches_close_inv, Matches_nil_inv in Hm. subst w9.
    exists sp. split; [|exact Hsp].
    repeat rewrite <- app_assoc. now rewrite app_nil_r.
  - apply Matches_close_inv, Matches_nil_inv in Hm. subst w7.
    exists []. split; [|reflexivity].
    repeat rewrite <- app_assoc. reflexivity.
Qed.

Lemma matched_text_is_a_map_witness :
  let content := lit "import os" ++ [NL]
                   ++ updated_map (lit "#", lit "#", lit "") (lit "r/") (lit "a.py")
                   ++ lit "x = 1" in
  let m := {| m_start := 10; m_end := 46;
              m_groups := [(1, (10, 46)); (1, (10, 10))] |} in
  search (map_pattern (lit "#", lit "#", lit "")) content = Some m /\
  exists a b sp,
    group content m 0
      = lit "#" ++ lit " Repository Map:" ++ a ++ lit "#" ++ lit " File:" ++ b ++ [NL]
          ++ (if nonempty (lit "") then lit "" ++ sp else []) /\
    forallb is_space sp = true.
Proof.
  intros content m.
  assert (H : search (map_pattern (lit "#", lit "#", lit "")) content = Some m)
    by (vm_compute; reflexivity).
  split; [exact H|].
  exact (@matched_text_is_a_map (lit "#") (lit "#") (lit "") content m H).
Defined.

(** ** Which runs return *)

Section Isolation.

Variable copy_ok : path -> bool.
Variables (startpath : path) (tree : str) (backup_dir : option path).

Lemma should_exclude_is_file (t t' : fs) (p r : path) :
  is_file t' p = is_file t p -> should_exclude t' p r = should_exclude t p r.
Proof. intros H. unfold should_exclude. now rewrite H. Qed.

(** The [try] block with its handler always returns, and leaves a file a
    file and everything else what it was. *)
Lemma process_candidate_returns (acc : list path) (p : path) (w w' : world)
  (r : result (list path)) :
  process_candidate copy_ok startpath tree backup_dir acc p w = (w', r) ->
  (exists acc', r = Ok acc') /\
  forall q, is_file (w_fs w') q = is_file (w_fs w) q.
Proof.
  unfold process_candidate, catch, try_update, mbind at 1.
  destruct (prepare copy_ok startpath tree backup_dir p w) as [w1 r1] eqn:Hprep.
  apply prepare_spec in Hprep as (Hfs1 & _ & _).
  destruct r1 as [[[content new_content] bs]|e].
  2:{ unfold mbind, set_metrics, ret. intros H; injection H as <- <-. simpl.
      split; [eauto|]. intros q. now rewrite Hfs1. }
  destruct (negb (Str.eqb new_content content)).
  2:{ unfold mbind, set_metrics, ret. intros H; injection H as <- <-. simpl.
      split; [eauto|]. intros q. now rewrite Hfs1. }
  pose proof (write_utf8_spec p new_content w1) as Hw. unfold mbind at 1.
  assert (Hkeep : forall (w2 : world) (s : str),
            (exists d, lookup (w_fs w1) p = Some (File d true)) ->
            lookup (w_fs w2) p = Some (File (Text s) true) ->
            (forall q, q <> p -> lookup (w_fs w2) q = lookup (w_fs w1) q) ->
            forall q, is_file (w_fs w2) q = is_file (w_fs w) q).
  { intros w2 s (d & Hd) Hp Hframe q. rewrite <- Hfs1. unfold is_file.
    destruct (Path.eqb q p) eqn:E.
    - apply path_eqb_eq in E. subst q. now rewrite Hp, Hd.
    - apply path_eqb_neq in E. now rewrite (Hframe q E). }
  destruct (lookup (w_fs w1) p) as [[|d [|]|]|] eqn:El;
    try (destruct Hw as (e & ->);
         unfold mbind, set_metrics, ret; intros H; injection H as <- <-; simpl;
         split; [eauto|]; intros q; now rewrite Hfs1).
  destruct (utf8_encodable new_content);
    destruct Hw as (w2 & -> & _ & Hp & Hframe);
    unfold mbind, set_metrics, ret; intros H; injection H as <- <-; simpl;
    (split; [eauto|]); apply (Hkeep w2 _ (ex_intro _ d eq_refl) Hp Hframe).
Qed.

(** One step of the walk raises exactly when the exclusion test raises. *)
Lemma process_path_returns (acc : list path) (p : path) (w w' : world)
  (r : result (list path)) :
  process_path copy_ok startpath tree backup_dir acc p w = (w', r) ->
  (forall q, is_file (w_fs w') q = is_file (w_fs w) q) /\
  match should_exclude (w_fs w) p startpath with
  | Ok _ => exists acc', r = Ok acc'
  | Raise e => r = Raise e
  end.
Proof.
  unfold process_path, mbind at 1 2, get_fs, lift.
  destruct (should_exclude (w_fs w) p startpath) as [[|]|e] eqn:Hex.
  - unfold mbind, set_metrics, ret. intros H; injection H as <- <-. simpl.
    split; [reflexivity|eauto].
  - assert (Hf : exists f, is_file (w_fs w) p = Ok f).
    { unfold should_exclude in Hex.
      destruct (relative_to p startpath) as [ps|]; [|discriminate]. cbn [bind] in Hex.
      destruct (existsb _ ps); [discriminate|].
      destruct (is_file (w_fs w) p) as [f|]; [eauto|discriminate]. }
    destruct Hf as (f & Hf). unfold mbind at 1. rewrite Hf.
    destruct f.
    + unfold mbind at 1, set_metrics at 1. cbn [w_fs].
      destruct (is_binary_file (w_fs w) p).
      * unfold mbind, set_metrics, ret. intros H; injection H as <- <-. simpl.
        split; [reflexivity|eauto].
      * intros H. apply process_candidate_returns in H as [Hok Hk].
        split; [exact Hk|exact Hok].
    + unfold ret. intros H; injection H as <- <-. split; [reflexivity|eauto].
  - intros H; injection H as <- <-. split; reflexivity.
Qed.

Lemma process_all_returns (walk : list path) :
  forall (acc : list path) (w : world),
    (exists w' result,
        process_all copy_ok startpath tree backup_dir walk acc w = (w', Ok result)) <->
    (forall p, In p walk -> exists b, should_exclude (w_fs w) p startpath = Ok b).
Proof.
  induction walk as [|p walk IH]; intros acc w.
  - simpl. unfold ret. split; [intros _ q []|eauto].
  - cbn [process_all]. unfold mbind.
    destruct (process_path copy_ok startpath tree backup_dir acc p w) as [w1 r1] eqn:Hstep.
    apply process_path_returns in Hstep as [Hk Hr].
    assert (Hsame : forall q, should_exclude (w_fs w1) q startpath
                              = should_exclude (w_fs w) q startpath).
    { intros q. apply should_exclude_is_file, Hk. }
    split.
    + intros (w' & result & Hrun) q [<-|Hq].
      * destruct (should_exclude (w_fs w) p startpath) as [b|e]; [eauto|].
        subst r1. discriminate.
      * destruct r1 as [acc1|e]; [|discriminate].
        rewrite <- Hsame. revert q Hq. apply (IH acc1 w1). eauto.
    + intros Hall.
      destruct (Hall p (or_introl eq_refl)) as (b & Hb). rewrite Hb in Hr.
      destruct Hr as (acc1 & ->).
      apply (IH acc1 w1). intros q Hq. rewrite Hsame. apply Hall. now right.
Qed.

(** Failures are kept apart.  A run of [update_files_with_tree] returns its
    list exactly when the exclusion test raises for none of the walked
    paths: whatever goes wrong with the backup, the read, the computation of
    the new content or the write of a file is caught and the walk goes on. *)
Theorem run_returns_iff (w : world) :
  (exists w' result,
      update_files_with_tree copy_ok startpath tree backup_dir w = (w', Ok result)) <->
  (forall p, In p (rglob (w_fs w) startpath) ->
             exists b, should_exclude (w_fs w) p startpath = Ok b).
Proof.
  unfold update_files_with_tree, mbind, get_fs. apply process_all_returns.
Qed.

End Isolation.

(** ** The counters of a run *)

Section Counters.

Variable copy_ok : path -> bool.
Variables (startpath : path) (tree : str) (backup_dir : option path).








End Counters.

(** ** Backups *)

Lemma strip_prefix_spec (pre ps r : list str) :
  Path.strip_prefix pre ps = Some r -> ps = pre ++ r.
Proof.
  revert ps. induction pre as [|x pre IH]; intros ps H; simpl in H.
  - now injection H as ->.
  - destruct ps as [|y ps]; [discriminate|].
    destruct (Str.eqb x y) eqn:E; [|discriminate].
    apply str_eqb_eq in E. subst y. simpl. f_equal. now apply IH.
Qed.

Lemma relative_to_spec (p base : path) (r : list str) :
  Path.relative_to p base = Ok r ->
  anchored p = anchored base /\ parts p = parts base ++ r.
Proof.
  unfold Path.relative_to.
  destruct (Bool.eqb (anchored p) (anchored base)) eqn:E; [|discriminate].
  apply Bool.eqb_prop in E.
  destruct (Path.strip_prefix (parts base) (parts p)) as [ps|] eqn:Es; [|discriminate].
  intros H. injection H as ->. split; [exact E|]. now apply strip_prefix_spec.
Qed.

(** The mirrored destination, where it is short enough. *)
Lemma backup_destination_mirrored (t : fs) (filepath backup_dir startpath dst : path)
  (relative_path : list str) :
  Path.relative_to filepath startpath = Ok relative_path ->
  List.length (to_str (join_parts backup_dir relative_path)) <= MAX_PATH_LENGTH ->
  backup_destination t filepath backup_dir startpath = Ok (Some dst) ->
  dst = join_parts backup_dir relative_path.
Proof.
  intros Hrel Hlen. unfold backup_destination. rewrite Hrel. cbn [bind].
  destruct (contains _ _); [discriminate|].
  destruct (should_exclude t filepath startpath) as [[|]|e]; cbn [bind];
    try discriminate.
  replace (Nat.ltb MAX_PATH_LENGTH _) with false
    by (symmetry; apply Nat.ltb_ge; exact Hlen).
  intros H. now injection H as <-.
Qed.

(** The mirror under the backup root keeps files apart: two files whose
    mirrored destinations are both short enough are backed up to the same
    place only when they are the same file. *)
Theorem mirrored_destinations_differ (t : fs) (p q backup_dir startpath d1 d2 : path)
  (rp rq : list str) :
  Path.relative_to p startpath = Ok rp ->
  Path.relative_to q startpath = Ok rq ->
  List.length (to_str (join_parts backup_dir rp)) <= MAX_PATH_LENGTH ->
  List.length (to_str (join_parts backup_dir rq)) <= MAX_PATH_LENGTH ->
  backup_destination t p backup_dir startpath = Ok (Some d1) ->
  backup_destination t q backup_dir startpath = Ok (Some d2) ->
  d1 = join_parts backup_dir rp /\ d2 = join_parts backup_dir rq /\
  (d1 = d2 <-> p = q).
Proof.
  intros Hp Hq Lp Lq H1 H2.
  pose proof (@backup_destination_mirrored t p backup_dir startpath d1 rp Hp Lp H1) as E1.
  pose proof (@backup_destination_mirrored t q backup_dir startpath d2 rq Hq Lq H2) as E2.
  split; [exact E1|]. split; [exact E2|]. subst d1 d2.
  apply relative_to_spec in Hp as [Ap Pp]. apply relative_to_spec in Hq as [Aq Pq].
  split.
  - intros E. unfold join_parts in E. injection E as E.
    apply app_inv_head in E. subst rq.
    destruct p as [ap pp], q as [aq pq]. simpl in *. congruence.
  - intros ->. rewrite Pp in Pq. apply app_inv_head in Pq. now subst rq.
Qed.

Lemma mirrored_destinations_differ_witness :
  let root := abs [lit "proj"] in
  let dir := abs [lit "proj"; lit ".tree_map_backup"; lit "20240101_000000"] in
  let p := abs [lit "proj"; lit "src"; lit "a.py"] in
  let q := abs [lit "proj"; lit "lib"; lit "a.py"] in
  let t := [(p, File (Text (lit "x")) true); (q, File (Text (lit "y")) true)] in
  let d1 := join_parts dir [lit "src"; lit "a.py"] in
  let d2 := join_parts dir [lit "lib"; lit "a.py"] in
  Path.relative_to p root = Ok [lit "src"; lit "a.py"] /\
  Path.relative_to q root = Ok [lit "lib"; lit "a.py"] /\
  List.length (to_str (join_parts dir [lit "src"; lit "a.py"])) <= MAX_PATH_LENGTH /\
  List.length (to_str (join_parts dir [lit "lib"; lit "a.py"])) <= MAX_PATH_LENGTH /\
  backup_destination t p dir root = Ok (Some d1) /\
  backup_destination t q dir root = Ok (Some d2) /\
  (d1 = join_parts dir [lit "src"; lit "a.py"] /\
   d2 = join_parts dir [lit "lib"; lit "a.py"] /\
   (d1 = d2 <-> p = q)).
Proof.
  intros root dir p q t d1 d2.
  assert (Hp : Path.relative_to p root = Ok [lit "src"; lit "a.py"]) by reflexivity.
  assert (Hq : Path.relative_to q root = Ok [lit "lib"; lit "a.py"]) by reflexivity.
  assert (Lp : List.length (to_str (join_parts dir [lit "src"; lit "a.py"]))
               <= MAX_PATH_LENGTH) by (vm_compute; lia).
  assert (Lq : List.length (to_str (join_parts dir [lit "lib"; lit "a.py"]))
               <= MAX_PATH_LENGTH) by (vm_compute; lia).
  assert (H1 : backup_destination t p dir root = Ok (Some d1)) by (vm_compute; reflexivity).
  assert (H2 : backup_destination t q dir root = Ok (Some d2)) by (vm_compute; reflexivity).
  repeat (split; [assumption|]).
  exact (@mirrored_destinations_differ t p q dir root d1 d2 _ _ Hp Hq Lp Lq H1 H2).
Defined.

Section Backups.

Variable copy_ok : path -> bool.
Variables (startpath : path) (tree : str) (dir : path).









End Backups.


(** ** Staging and committing *)

Lemma skipn_add (A : Type) (a b : nat) (l : list A) :
  skipn (a + b) l = skipn a (skipn b l).
Proof.
  revert l. induction b as [|b IH]; intros l.
  - now rewrite Nat.add_0_r.
  - rewrite Nat.add_succ_r. destruct l as [|x l]; simpl.
    + now rewrite skipn_nil.
    + apply IH.
Qed.

Lemma chunks_concat (A : Type) (n : nat) (k : nat) :
  forall l : list A,
    List.length l <= k * S n ->
    List.concat (map (fun i => firstn (S n) (skipn i l))
                     (map (fun j => j * S n) (seq 0 k))) = l.
Proof.
  induction k as [|k IH]; intros l Hlen.
  - destruct l; [reflexivity|simpl in Hlen; lia].
  - cbn [seq map List.concat]. rewrite <- seq_shift, !map_map.
    cbn [Nat.mul skipn].
    transitivity (firstn (S n) l ++ skipn (S n) l); [|apply firstn_skipn]. f_equal.
    assert (Hs : List.length (skipn (S n) l) <= k * S n)
      by (rewrite length_skipn; lia).
    etransitivity; [|exact (IH _ Hs)].
    f_equal. rewrite map_map. apply map_ext. intros j.
    replace (S n + j * S n) with (j * S n + S n) by lia.
    now rewrite skipn_add.
Qed.

Lemma range_step_bound (n step k : nat) :
  In k (seq 0 ((n + S step - 1) / S step)) -> k * S step < n.
Proof.
  rewrite in_seq. intros [_ Hk]. cbn [Nat.add] in Hk.
  pose proof (Nat.div_mod_eq (n + S step - 1) (S step)) as Hd.
  pose proof (Nat.mod_upper_bound (n + S step - 1) (S step)) as Hm.
  nia.
Qed.

(** The loop of [git_commit_changes] stages every modified file once, in the
    order of the list: the chunks, one after the other, are the list; each
    holds at least one and at most a hundred files; and there are as many
    as the length divided by a hundred, rounded up. *)
Theorem chunks_stage_every_file_once (modified_files : list path) :
  List.concat (chunks modified_files) = modified_files /\
  Forall (fun chunk => 1 <= List.length chunk <= chunk_size) (chunks modified_files) /\
  List.length (chunks modified_files) = (List.length modified_files + 99) / 100.
Proof.
  unfold chunks, range_step, chunk_size. split; [|split].
  - apply chunks_concat.
    pose proof (Nat.div_mod_eq (List.length modified_files + 100 - 1) 100) as Hd.
    pose proof (Nat.mod_upper_bound (List.length modified_files + 100 - 1) 100) as Hm.
    nia.
  - apply Forall_forall. intros chunk Hin.
    apply in_map_iff in Hin as (i & <- & Hi).
    apply in_map_iff in Hi as (k & <- & Hk).
    apply (range_step_bound (List.length modified_files) 99) in Hk.
    rewrite length_firstn, length_skipn. lia.
  - rewrite !length_map, length_seq. f_equal. lia.
Qed.



(** ** The tree text and its lines *)

Lemma split_on_nonempty (sep : char) (s : str) : split_on sep s <> [].
Proof.
  induction s as [|c s IH]; simpl; [discriminate|].
  destruct (split_on sep s); [contradiction|].
  destruct (N.eqb c sep); discriminate.
Qed.

Lemma split_on_last (sep : char) (p : str) :
  ~ In sep p -> split_on sep p = [p].
Proof.
  induction p as [|c p IH]; intros Hno; [reflexivity|].
  simpl. rewrite IH by (intros H; apply Hno; now right).
  destruct (N.eqb c sep) eqn:E; [|reflexivity].
  apply N.eqb_eq in E. exfalso. apply Hno. now left.
Qed.

Lemma split_on_app (sep : char) (p s : str) :
  ~ In sep p -> split_on sep (p ++ sep :: s) = p :: split_on sep s.
Proof.
  induction p as [|c p IH]; intros Hno.
  - simpl. pose proof (split_on_nonempty sep s) as Hne.
    destruct (split_on sep s); [contradiction|]. now rewrite N.eqb_refl.
  - cbn [app split_on]. rewrite IH by (intros H; apply Hno; now right).
    destruct (N.eqb c sep) eqn:E; [|reflexivity].
    apply N.eqb_eq in E. exfalso. apply Hno. now left.
Qed.

Lemma split_join (sep : char) (lines : list str) :
  lines <> [] ->
  Forall (fun line => ~ In sep line) lines ->
  split_on sep (join [sep] lines) = lines.
Proof.
  induction lines as [|p lines IH]; intros Hne Hall; [contradiction|].
  inversion Hall as [|? ? Hp Hrest]; subst.
  destruct lines as [|q lines].
  - simpl. now apply split_on_last.
  - change (join [sep] (p :: q :: lines)) with (p ++ sep :: join [sep] (q :: lines)).
    rewrite split_on_app by exact Hp. f_equal. apply IH; [discriminate|exact Hrest].
Qed.

(** Splitting a text at a character and joining the pieces with it gives
    the text back. *)
Lemma join_split (sep : char) (s : str) : join [sep] (split_on sep s) = s.
Proof.
  induction s as [|c s IH]; [reflexivity|].
  simpl. pose proof (split_on_nonempty sep s) as Hne.
  destruct (split_on sep s) as [|piece pieces]; [contradiction|].
  destruct (N.eqb c sep) eqn:E.
  - apply N.eqb_eq in E. subst c.
    change (join [sep] ([] :: piece :: pieces)) with (sep :: join [sep] (piece :: pieces)).
    now rewrite IH.
  - destruct pieces as [|q pieces].
    + simpl in IH. simpl. now rewrite IH.
    + change (join [sep] ((c :: piece) :: q :: pieces))
        with (c :: join [sep] (piece :: q :: pieces)).
      now rewrite IH.
Qed.

(** The tree text goes from [generate_tree] to the block through a join and
    a split.  For lines that hold no line feed these cancel: the block has,
    between its first line and its [File:] line, one line for each line of
    the tree, the middle marker and a space in front of it. *)
Theorem block_lines_of_tree (comment_start comment_middle comment_end : str)
  (lines : list str) (name : str) :
  lines <> [] ->
  Forall (fun line => ~ In NL line) lines ->
  split_on NL (join [NL] lines) = lines /\
  updated_map (comment_start, comment_middle, comment_end) (join [NL] lines) name
  = comment_start ++ lit " Repository Map:" ++ [NL]
      ++ List.concat (map (fun line => comment_middle ++ [SPACE] ++ line ++ [NL]) lines)
      ++ comment_middle ++ lit " File: " ++ name ++ [NL]
      ++ (if nonempty comment_end then comment_end ++ [NL] else []).
Proof.
  intros Hne Hall. pose proof (@split_join NL lines Hne Hall) as Hs.
  split; [exact Hs|].
  rewrite updated_map_eq, Hs.
  change (lit " File: ") with (lit " File:" ++ [SPACE]).
  repeat rewrite <- app_assoc. reflexivity.
Qed.

Lemma block_lines_of_tree_witness :
  let lines := [lit "proj/"; TEE ++ lit "a.py"; CORNER ++ lit "b.py"] in
  lines <> [] /\
  Forall (fun line => ~ In NL line) lines /\
  (split_on NL (join [NL] lines) = lines /\
   updated_map (lit "#", lit "#", lit "") (join [NL] lines) (lit "a.py")
   = lit "#" ++ lit " Repository Map:" ++ [NL]
       ++ List.concat (map (fun line => lit "#" ++ [SPACE] ++ line ++ [NL]) lines)
       ++ lit "#" ++ lit " File: " ++ lit "a.py" ++ [NL]
       ++ (if nonempty (lit "") then lit "" ++ [NL] else [])).
Proof.
  intros lines.
  assert (Hne : lines <> []) by discriminate.
  assert (Hall : Forall (fun line => ~ In NL line) lines).
  { repeat constructor; vm_compute; intuition discriminate. }
  split; [exact Hne|]. split; [exact Hall|].
  exact (@block_lines_of_tree (lit "#") (lit "#") (lit "") lines (lit "a.py") Hne Hall).
Defined.

(** ** The lines of the descent *)

Lemma take_while_filter_length (A : Type) (f : A -> bool) (l : list A) :
  List.length (take_while f l) <= List.length (filter f l).
Proof.
  induction l as [|x l IH]; simpl; [lia|].
  destruct (f x); simpl; lia.
Qed.

Lemma filter_rev_length (A : Type) (f : A -> bool) (l : list A) :
  List.length (filter f (rev l)) = List.length (filter f l).
Proof.
  induction l as [|x l IH]; [reflexivity|].
  simpl. rewrite filter_app, length_app, IH. simpl.
  destruct (f x); simpl; lia.
Qed.

Lemma trailing_run_le (tree : list str) :
  List.length (trailing_run tree)
  <= List.length (filter (fun line => startswith line CORNER) tree).
Proof.
  unfold trailing_run. rewrite length_rev.
  rewrite <- (filter_rev_length _ tree). apply take_while_filter_length.
Qed.

Lemma short_run_unchanged (tree : list str) :
  List.length (trailing_run tree) <= 1 -> final_curved_lines tree = Ok tree.
Proof.
  intros H. rewrite final_curved_lines_eq. f_equal.
  unfold curved. destruct (Nat.ltb 1 (List.length tree)); [|reflexivity].
  rewrite (before_run_app tree) at 3. f_equal.
  destruct (trailing_run tree) as [|r [|r' run]]; [reflexivity|reflexivity|].
  simpl in H. lia.
Qed.

(** A prefix after which no line starts with the corner connector. *)
Lemma plain_app (prefix b : str) :
  (forall x, startswith (prefix ++ x) CORNER = false) ->
  forall x, startswith ((prefix ++ b) ++ x) CORNER = false.
Proof. intros H x. rewrite <- app_assoc. apply H. Qed.

Lemma file_lines_plain (prefix : str) (files : list str) (dirs : list path) :
  (forall x, startswith (prefix ++ x) CORNER = false) ->
  filter (fun line => startswith line CORNER) (file_lines prefix files dirs) = [].
Proof.
  intros Hp. unfold file_lines. generalize (enumerate files) as l.
  induction l as [|[i file] l IH]; [reflexivity|].
  cbn [map filter]. rewrite IH.
  destruct (_ && _); now rewrite Hp.
Qed.

(** Below the top level the descent adds no line that starts with the
    corner connector. *)
Lemma add_to_tree_plain (limit : nat) (t : fs) (startpath : path) :
  forall (p : path) (prefix : str) (tree0 tree : list str),
    (forall x, startswith (prefix ++ x) CORNER = false) ->
    add_to_tree limit t startpath p prefix tree0 = Ok tree ->
    filter (fun line => startswith line CORNER) tree
    = filter (fun line => startswith line CORNER) tree0.
Proof.
  induction limit as [|limit IH]; intros p prefix tree0 tree Hp H; [discriminate|].
  cbn [add_to_tree] in H.
  destruct (classify t startpath (sorted (iterdir t p)) [] []) as [[files dirs]|e];
    [|discriminate].
  cbn [bind] in H.
  remember (tree0 ++ file_lines prefix files dirs) as tr eqn:Etr.
  assert (Htr : filter (fun line => startswith line CORNER) tr
                = filter (fun line => startswith line CORNER) tree0).
  { subst tr. now rewrite filter_app, file_lines_plain, app_nil_r. }
  clear Etr. revert tr Htr H. generalize (enumerate dirs) as ds.
  induction ds as [|[i dir] ds IHds]; intros tr Htr H.
  - now injection H as <-.
  - cbn -[BLANK PIPE CORNER TEE] in H.
    match type of H with
    | bind ?r _ = _ => destruct r as [tree'|e] eqn:E; [|discriminate]
    end.
    cbn [bind] in H. apply IH in E; [|now apply plain_app].
    apply (IHds tree'); [|exact H].
    rewrite E, filter_app. cbn [filter]. rewrite Hp. now rewrite app_nil_r.
Qed.

Lemma corner_line (x : str) : startswith (CORNER ++ x) CORNER = true.
Proof. destruct x; reflexivity. Qed.

Lemma tee_line (x : str) : startswith (TEE ++ x) CORNER = false.
Proof. reflexivity. Qed.

Lemma hits_le_one (A : Type) (m k : nat) :
  forall (a : nat) (l : list A),
    List.length (filter (fun x => Nat.eqb (fst x) m) (combine (seq a k) l)) <= 1 /\
    (m < a ->
     List.length (filter (fun x => Nat.eqb (fst x) m) (combine (seq a k) l)) = 0).
Proof.
  induction k as [|k IH]; intros a l; [simpl; lia|].
  destruct l as [|x l]; [simpl; lia|].
  cbn [seq combine filter fst]. destruct (IH (S a) l) as [H1 H0].
  destruct (Nat.eqb a m) eqn:E.
  - apply Nat.eqb_eq in E. subst m. cbn [List.length]. rewrite H0 by lia. lia.
  - apply Nat.eqb_neq in E. split; [exact H1|]. intros Hlt. apply H0. lia.
Qed.

(** At the top level the lines of the files hold at most one that starts
    with the corner connector, and none when there is a directory. *)
Lemma file_lines_corners (files : list str) (dirs : list path) :
  List.length (filter (fun line => startswith line CORNER) (file_lines [] files dirs))
  <= match dirs with [] => 1 | _ => 0 end.
Proof.
  unfold file_lines.
  assert (H : forall l : list (nat * str),
            List.length
              (filter (fun line => startswith line CORNER)
                 (map (fun '(i, file) =>
                         if Nat.eqb i (List.length files - 1)
                            && negb (Nat.ltb 0 (List.length dirs))
                         then [] ++ CORNER ++ file else [] ++ TEE ++ file) l))
            <= if negb (Nat.ltb 0 (List.length dirs))
               then List.length
                      (filter (fun x => Nat.eqb (fst x) (List.length files - 1)) l)
               else 0).
  { induction l as [|[i file] l IH]; [simpl; destruct (negb _); lia|].
    cbn [map filter fst].
    destruct (negb (Nat.ltb 0 (List.length dirs))).
    - rewrite Bool.andb_true_r. destruct (Nat.eqb i (List.length files - 1)).
      + change ([] ++ CORNER ++ file) with (CORNER ++ file). rewrite corner_line.
        cbn [List.length]. lia.
      + change (startswith ([] ++ TEE ++ file) CORNER) with false. exact IH.
    - rewrite Bool.andb_false_r.
      change (startswith ([] ++ TEE ++ file) CORNER) with false. exact IH. }
  specialize (H (enumerate files)).
  destruct dirs as [|d dirs].
  - pose proof (proj1 (hits_le_one (List.length files - 1) (List.length files) 0 files))
      as H0.
    eapply Nat.le_trans; [exact H|exact H0].
  - exact H.
Qed.

Lemma add_to_tree_top (limit : nat) (t : fs) (startpath p : path)
  (tree0 tree : list str) :
  add_to_tree limit t startpath p [] tree0 = Ok tree ->
  List.length (filter (fun line => startswith line CORNER) tree)
  <= List.length (filter (fun line => startswith line CORNER) tree0) + 1.
Proof.
  destruct limit as [|limit]; intros H; [discriminate|].
  cbn [add_to_tree] in H.
  destruct (classify t startpath (sorted (iterdir t p)) [] []) as [[files dirs]|e];
    [|discriminate].
  cbn [bind] in H.
  pose proof (file_lines_corners files dirs) as Hf.
  assert (Hd : List.length
                 (filter (fun x => Nat.eqb (fst x) (List.length dirs - 1))
                    (enumerate dirs))
               <= match dirs with [] => 0 | _ => 1 end).
  { destruct dirs as [|d dirs]; [simpl; lia|].
    apply (hits_le_one (List.length (d :: dirs) - 1) (List.length (d :: dirs)) 0
             (d :: dirs)). }
  remember (tree0 ++ file_lines [] files dirs) as tr eqn:Etr.
  assert (Htr : List.length (filter (fun line => startswith line CORNER) tr)
                + List.length
                    (filter (fun x => Nat.eqb (fst x) (List.length dirs - 1))
                       (enumerate dirs))
                <= List.length (filter (fun line => startswith line CORNER) tree0) + 1).
  { subst tr. rewrite filter_app, length_app. destruct dirs; lia. }
  clear Etr Hf Hd. revert tr Htr H. generalize (enumerate dirs) as ds.
  induction ds as [|[i dir] ds IHds]; intros tr Htr H.
  - injection H as <-. lia.
  - cbn -[BLANK PIPE CORNER TEE] in H.
    match type of H with
    | bind ?r _ = _ => destruct r as [tree'|e] eqn:E; [|discriminate]
    end.
    cbn [bind] in H. apply (IHds tree'); [|exact H].
    apply add_to_tree_plain in E.
    + rewrite E, filter_app, length_app. cbn [filter fst] in Htr |- *.
      destruct (Nat.eqb i (List.length dirs - 1));
        [rewrite corner_line|rewrite tee_line];
        cbn [List.length] in Htr |- *; lia.
    + intros x. destruct (Nat.eqb i (List.length dirs - 1)); reflexivity.
Qed.

Lemma drawn_deeper (prefix b line : str) :
  b = BLANK \/ b = PIPE -> drawn (prefix ++ b) line -> drawn prefix line.
Proof.
  intros Hb (conn & rest & _ & ->). exists b, (conn ++ rest). split.
  - unfold connectors. destruct Hb as [-> | ->]; simpl; auto.
  - now rewrite <- app_assoc.
Qed.

Lemma file_lines_drawn (prefix : str) (files : list str) (dirs : list path) :
  Forall (drawn prefix) (file_lines prefix files dirs).
Proof.
  unfold file_lines. generalize (enumerate files) as l.
  induction l as [|[i file] l IH]; [constructor|].
  cbn [map]. constructor; [|exact IH].
  destruct (_ && _); [exists CORNER, file|exists TEE, file];
    (split; [unfold connectors; simpl; auto|reflexivity]).
Qed.

(** The descent only appends, and every line it appends is drawn under the
    prefix it was given. *)
Lemma add_to_tree_shape (limit : nat) (t : fs) (startpath : path) :
  forall (p : path) (prefix : str) (tree0 tree : list str),
    add_to_tree limit t startpath p prefix tree0 = Ok tree ->
    exists added, tree = tree0 ++ added /\ Forall (drawn prefix) added.
Proof.
  induction limit as [|limit IH]; intros p prefix tree0 tree H; [discriminate|].
  cbn [add_to_tree] in H.
  destruct (classify t startpath (sorted (iterdir t p)) [] []) as [[files dirs]|e];
    [|discriminate].
  cbn [bind] in H.
  remember (tree0 ++ file_lines prefix files dirs) as tr eqn:Etr.
  assert (Htr : exists added, tr = tree0 ++ added /\ Forall (drawn prefix) added).
  { exists (file_lines prefix files dirs). split; [exact Etr|apply file_lines_drawn]. }
  clear Etr. revert tr Htr H. generalize (enumerate dirs) as ds.
  induction ds as [|[i dir] ds IHds]; intros tr Htr H.
  - injection H as <-. exact Htr.
  - cbn -[BLANK PIPE CORNER TEE] in H.
    match type of H with
    | bind ?r _ = _ => destruct r as [tree'|e] eqn:E; [|discriminate]
    end.
    cbn [bind] in H. apply (IHds tree'); [|exact H].
    apply IH in E as (sub & -> & Hsub).
    destruct Htr as (added & -> & Hadded).
    exists (added ++ [prefix ++ (if Nat.eqb i (List.length dirs - 1)
                                 then CORNER else TEE)
                        ++ name dir ++ [SLASH]] ++ sub).
    split; [now rewrite <- !app_assoc|].
    apply Forall_app. split; [exact Hadded|]. apply Forall_app. split.
    + constructor; [|constructor].
      destruct (Nat.eqb i (List.length dirs - 1));
        [exists CORNER, (name dir ++ [SLASH])|exists TEE, (name dir ++ [SLASH])];
        (split; [unfold connectors; simpl; auto|reflexivity]).
    + eapply Forall_impl; [|exact Hsub]. intros line.
      apply drawn_deeper. destruct (Nat.eqb i (List.length dirs - 1)); auto.
Qed.

(** For a start directory whose name does not begin with the corner
    connector, the last pass of [generate_tree] changes nothing: the tree
    is the line of the root followed by the lines of the descent, each of
    which starts with one of the four connectors. *)
Theorem tree_of_plain_root (limit : nat) (t : fs) (startpath : path)
  (tree : list str) :
  startswith (Path.name startpath ++ [SLASH]) CORNER = false ->
  add_to_tree limit t startpath startpath [] [Path.name startpath ++ [SLASH]]
    = Ok tree ->
  tree_lines limit t startpath = Ok tree /\
  generate_tree limit t startpath = Ok (join [NL] tree) /\
  exists added,
    tree = (Path.name startpath ++ [SLASH]) :: added /\ Forall (drawn []) added.
Proof.
  intros Hroot Hadd.
  assert (Hlines : tree_lines limit t startpath = Ok tree).
  { unfold tree_lines. rewrite Hadd. cbn [bind]. apply short_run_unchanged.
    pose proof (trailing_run_le tree) as H1.
    pose proof (add_to_tree_top _ _ _ _ _ Hadd) as H2.
    cbn [filter] in H2. rewrite Hroot in H2. cbn [List.length] in H2. lia. }
  split; [exact Hlines|]. split.
  - unfold generate_tree. now rewrite Hlines.
  - apply add_to_tree_shape in Hadd as (added & -> & Hadded). now exists added.
Qed.

Lemma tree_of_plain_root_witness :
  let root := abs [lit "proj"] in
  let t := [(root, Dir);
            (abs [lit "proj"; lit "main.py"], File (Text (lit "x")) true);
            (abs [lit "proj"; lit "src"], Dir);
            (abs [lit "proj"; lit "src"; lit "a.py"], File (Text (lit "y")) true)] in
  let tree := [lit "proj/"; TEE ++ lit "main.py"; CORNER ++ lit "src/";
               BLANK ++ CORNER ++ lit "a.py"] in
  startswith (Path.name root ++ [SLASH]) CORNER = false /\
  add_to_tree 1000 t root root [] [Path.name root ++ [SLASH]] = Ok tree /\
  (tree_lines 1000 t root = Ok tree /\
   generate_tree 1000 t root = Ok (join [NL] tree) /\
   exists added,
     tree = (Path.name root ++ [SLASH]) :: added /\ Forall (drawn []) added).
Proof.
  intros root t tree.
  assert (Hroot : startswith (Path.name root ++ [SLASH]) CORNER = false) by reflexivity.
  assert (Hadd : add_to_tree 1000 t root root [] [Path.name root ++ [SLASH]] = Ok tree)
    by (vm_compute; reflexivity).
  split; [exact Hroot|]. split; [exact Hadd|].
  exact (@tree_of_plain_root 1000 t root tree Hroot Hadd).
Defined.

(** ** A directory whose entries are all excluded *)

Lemma In_insert_sorted (x p : path) (l : list path) :
  In x (insert_sorted p l) -> x = p \/ In x l.
Proof.
  induction l as [|q l IH]; simpl.
  - intros [<-|[]]. now left.
  - destruct (parts_ltb (parts p) (parts q)); simpl.
    + intros [<-|H]; auto.
    + intros [<-|H]; [auto|]. apply IH in H as [->|H]; auto.
Qed.

Lemma In_sorted (x : path) (l : list path) : In x (sorted l) -> In x l.
Proof.
  unfold sorted. induction l as [|p l IH]; simpl; [auto|].
  intros H. apply In_insert_sorted in H as [->|H]; auto.
Qed.

Lemma classify_all_excluded (t : fs) (startpath : path) (items : list path) :
  forall (files : list str) (dirs : list path),
    (forall item, In item items -> should_exclude t item startpath = Ok true) ->
    classify t startpath items files dirs = Ok (files, dirs).
Proof.
  induction items as [|item items IH]; intros files dirs Hall; [reflexivity|].
  cbn [classify]. rewrite (Hall item (or_introl eq_refl)). cbn [bind].
  apply IH. intros x Hx. apply Hall. now right.
Qed.

(** Excluded entries leave no line.  When every entry of the start directory
    is excluded (or there is none), the tree is the line of the root alone:
    nothing is listed and no directory is entered. *)
Theorem excluded_entries_leave_no_line (limit : nat) (t : fs) (startpath : path) :
  (forall item, In item (iterdir t startpath) ->
                should_exclude t item startpath = Ok true) ->
  generate_tree (S limit) t startpath = Ok (Path.name startpath ++ [SLASH]).
Proof.
  intros Hall. unfold generate_tree, tree_lines. cbn [add_to_tree].
  rewrite classify_all_excluded
    by (intros item Hin; apply Hall; now apply In_sorted).
  reflexivity.
Qed.

Lemma excluded_entries_leave_no_line_witness :
  let root := abs [lit "proj"] in
  let t := [(root, Dir);
            (abs [lit "proj"; lit ".git"], Dir);
            (abs [lit "proj"; lit ".git"; lit "config"], File (Text (lit "x")) true);
            (abs [lit "proj"; lit "README.md"], File (Text (lit "y")) true)] in
  (forall item, In item (iterdir t root) -> should_exclude t item root = Ok true) /\
  generate_tree 1000 t root = Ok (lit "proj/").
Proof.
  intros root t.
  assert (H : forall item, In item (iterdir t root) ->
                           should_exclude t item root = Ok true).
  { intros item Hin. vm_compute in Hin.
    destruct Hin as [<-|[<-|[]]]; vm_compute; reflexivity. }
  split; [exact H|]. exact (@excluded_entries_leave_no_line 999 t root H).
Defined.

(** ** The preview and the run *)

Lemma preview_of_In (t : fs) (current_dir : path) (walk : list path) :
  forall (changes : list path) (f : path),
    preview_of t current_dir walk = Ok changes ->
    In f walk ->
    is_file t f = Ok true ->
    should_exclude t f current_dir = Ok false ->
    is_binary_file t f = false ->
    In f changes.
Proof.
  induction walk as [|g walk IH]; intros changes f H Hin Hf Hex Hbin; [contradiction|].
  cbn [preview_of] in H.
  destruct Hin as [->|Hin].
  - rewrite Hf in H. cbn [bind] in H. rewrite Hex in H. cbn [bind] in H.
    rewrite Hbin in H. cbn [negb bind] in H.
    destruct (preview_of t current_dir walk) as [rest|e]; [|discriminate].
    cbn [bind] in H. injection H as <-. now left.
  - match type of H with
    | bind ?r _ = _ => destruct r as [keep|e]; [|discriminate]
    end.
    cbn [bind] in H.
    destruct (preview_of t current_dir walk) as [rest|e] eqn:E; [|discriminate].
    cbn [bind] in H. injection H as <-.
    assert (In f rest) by (now apply (IH rest f)).
    destruct keep; [now right|assumption].
Qed.

(** The run modifies only what the preview of [main] announced: every path
    of the list [update_files_with_tree] returns is in the list of the
    preview taken before the run. *)
Theorem modified_files_were_previewed (copy_ok : path -> bool) (startpath : path)
  (tree : str) (backup_dir : option path) (w w' : world)
  (changes result : list path) :
  NoDup (map fst (w_fs w)) ->
  preview (w_fs w) startpath = Ok changes ->
  update_files_with_tree copy_ok startpath tree backup_dir w = (w', Ok result) ->
  incl result changes.
Proof.
  intros Hkeys Hprev Hrun. unfold update_files_with_tree, mbind, get_fs in Hrun.
  assert (Hnd : NoDup (rglob (w_fs w) startpath)) by (now apply NoDup_filter).
  destruct (@process_all_spec copy_ok startpath tree backup_dir (w_fs w)
              (rglob (w_fs w) startpath) [] result w w'
              Hnd (fun q _ => eq_refl) Hrun)
    as (R & Hres & _ & _ & HinR & _).
  simpl in Hres. subst R.
  intros p Hp. apply HinR in Hp as [Hwalk (new & Hex & old & Hl & _)].
  apply (@preview_of_In (w_fs w) startpath (rglob (w_fs w) startpath) changes p Hprev Hwalk).
  - unfold is_file. now rewrite Hl.
  - exact Hex.
  - unfold is_binary_file, read_locale. now rewrite Hl.
Qed.

Lemma modified_files_were_previewed_witness :
  let root := abs [lit "proj"] in
  let p := abs [lit "proj"; lit "a.py"] in
  let q := abs [lit "proj"; lit "b.py"] in
  let tree := lit "proj/" ++ [NL] ++ TEE ++ lit "a.py" ++ [NL] ++ CORNER ++ lit "b.py" in
  let st := get_comment_style (lit ".py") in
  let w := {| w_fs := [(root, Dir); (p, File (Text (lit "x = 1")) true);
                       (q, File (Text (updated_map st tree (lit "b.py"))) true)];
              w_backups := []; w_metrics := metrics0 |} in
  let run := update_files_with_tree (fun _ => true) root tree None w in
  NoDup (map fst (w_fs w)) /\
  preview (w_fs w) root = Ok [p; q] /\
  run = (fst run, Ok [p]) /\
  incl [p] [p; q].
Proof.
  intros root p q tree st w run.
  assert (Hnd : NoDup (map fst (w_fs w))).
  { repeat constructor; simpl; intuition discriminate. }
  assert (Hprev : preview (w_fs w) root = Ok [p; q]) by (vm_compute; reflexivity).
  assert (Hrun : run = (fst run, Ok [p])) by (vm_compute; reflexivity).
  split; [exact Hnd|]. split; [exact Hprev|]. split; [exact Hrun|].
  exact (@modified_files_were_previewed (fun _ => true) root tree None w (fst run)
           [p; q] [p] Hnd Hprev Hrun).
Defined.

(** ** Where a second insertion changes nothing *)

Lemma ends_nil (s : str) (pos : nat) : ends [] s pos pos.
Proof. intros caps. now exists caps. Qed.

Lemma ends_lit (x : char) (p : pattern) (s : str) (pos e : nat) :
  ends p s (S pos) e -> ends (Lit x :: p) (x :: s) pos e.
Proof. intros H caps. simpl. rewrite N.eqb_refl. apply H. Qed.

Lemma ends_lits (l : str) (p : pattern) (s : str) (pos e : nat) :
  ends p s (pos + List.length l) e -> ends (map Lit l ++ p) (l ++ s) pos e.
Proof.
  revert pos. induction l as [|x l IH]; intros pos H.
  - simpl in *. now rewrite Nat.add_0_r in H.
  - cbn [map app]. apply ends_lit. apply IH.
    cbn [List.length] in H. now rewrite Nat.add_succ_r in H.
Qed.

Lemma ends_open (g : nat) (p : pattern) (s : str) (pos e : nat) :
  ends p s pos e -> ends (Open g :: p) s pos e.
Proof. intros H caps. simpl. apply H. Qed.

Lemma ends_close (g : nat) (p : pattern) (s : str) (pos e : nat) :
  ends p s pos e -> ends (Close g :: p) s pos e.
Proof. intros H caps. simpl. apply H. Qed.

(** [.*?] takes the shortest text after which the rest matches. *)
Lemma ends_lazy (a : str) (p : pattern) (s : str) (pos e : nat) :
  ends p s (pos + List.length a) e ->
  (forall k caps, k < List.length a ->
                  match_here p (skipn k (a ++ s)) (pos + k) caps = None) ->
  ends (LazyAny :: p) (a ++ s) pos e.
Proof.
  revert pos. induction a as [|x a IH]; intros pos H Hfail caps.
  - rewrite lazy_unfold. cbn [app List.length] in *. rewrite Nat.add_0_r in H.
    destruct (H caps) as (caps' & ->). now exists caps'.
  - rewrite lazy_unfold.
    pose proof (Hfail 0 caps) as H0. cbn [skipn] in H0. rewrite Nat.add_0_r in H0.
    rewrite H0 by (simpl; lia). cbn [app].
    apply IH.
    + cbn [List.length] in H. now rewrite Nat.add_succ_r in H.
    + intros k caps0 Hk. specialize (Hfail (S k) caps0). cbn [skipn app] in Hfail.
      rewrite Nat.add_succ_r in Hfail. apply Hfail. simpl. lia.
Qed.

(** [\s*] takes all the white space there is. *)
Lemma ends_greedy (sp : str) (p : pattern) (c : str) (pos e : nat) :
  forallb is_space sp = true ->
  no_leading_space c = true ->
  ends p c (pos + List.length sp) e ->
  ends (GreedySpace :: p) (sp ++ c) pos e.
Proof.
  revert pos. induction sp as [|y sp IH]; intros pos Hsp Hc H caps.
  - rewrite greedy_unfold. cbn [app List.length] in *. rewrite Nat.add_0_r in H.
    destruct c as [|x c]; [apply H|].
    simpl in Hc. apply Bool.negb_true_iff in Hc. rewrite Hc. apply H.
  - rewrite greedy_unfold. cbn [app]. simpl in Hsp.
    apply andb_prop in Hsp as [Hy Hsp]. rewrite Hy.
    assert (Hrec : ends (GreedySpace :: p) (sp ++ c) (S pos) e).
    { apply IH; [exact Hsp|exact Hc|].
      cbn [List.length] in H. now rewrite Nat.add_succ_r in H. }
    destruct (Hrec caps) as (caps' & ->). now exists caps'.
Qed.

Lemma lits_fail (l : str) (p : pattern) :
  forall (s : str) (pos : nat) (caps : spans),
    startswith s l = false -> match_here (map Lit l ++ p) s pos caps = None.
Proof.
  induction l as [|y l IH]; intros s pos caps H.
  - destruct s; discriminate.
  - destruct s as [|x s]; [reflexivity|].
    simpl in H. cbn [map app match_here].
    destruct (N.eqb x y); [|reflexivity]. simpl in H. now apply IH.
Qed.

Lemma startswith_more (key u more : str) :
  List.length key <= List.length u ->
  startswith (u ++ more) key = startswith u key.
Proof.
  revert u. induction key as [|y key IH]; intros u Hlen.
  - destruct u; [destruct more|]; reflexivity.
  - destruct u as [|x u]; [simpl in Hlen; lia|].
    cbn [app startswith]. rewrite IH by (simpl in Hlen; lia). reflexivity.
Qed.

Lemma only_at_end_spec (key body more : str) (k : nat) :
  only_at_end key body = true ->
  k < List.length body ->
  startswith (skipn k (body ++ key ++ more)) key = false.
Proof.
  unfold only_at_end. rewrite forallb_forall. intros H Hk.
  specialize (H k). rewrite in_seq in H.
  assert (Hn : negb (startswith (skipn k (body ++ key)) key) = true) by (apply H; lia).
  apply Bool.negb_true_iff in Hn.
  rewrite app_assoc, skipn_app.
  replace (k - List.length (body ++ key)) with 0
    by (rewrite length_app; lia).
  cbn [skipn]. rewrite startswith_more; [exact Hn|].
  rewrite length_skipn, length_app. lia.
Qed.

(** The pattern of a style, on a block of the style followed by [c]: the
    match ends where the block ends. *)
Lemma block_match_ends (comment_start comment_middle comment_end tree name c : str) :
  ~ In NL name ->
  only_at_end (comment_middle ++ lit " File:") (block_body comment_middle tree) = true ->
  (nonempty comment_end = true -> no_leading_space c = true) ->
  ends (map_pattern (comment_start, comment_middle, comment_end))
       (updated_map (comment_start, comment_middle, comment_end) tree name ++ c)
       0
       (List.length (updated_map (comment_start, comment_middle, comment_end) tree name)).
Proof.
  intros Hname Hkey Hc.
  rewrite updated_map_eq, map_pattern_eq.
  fold (block_body comment_middle tree).
  set (body := block_body comment_middle tree) in *.
  set (tailp := if nonempty comment_end
                then [Close 1] ++ [Open 2] ++ map Lit comment_end ++ [GreedySpace; Close 2]
                else [Close 1]).
  set (tailt := if nonempty comment_end then comment_end ++ [NL] else []).
  set (total := List.length
                  (comment_start ++ lit " Repository Map:" ++ body ++ comment_middle
                     ++ lit " File:" ++ ([SPACE] ++ name) ++ [NL] ++ tailt)).
  assert (Htail : forall pos, ends tailp (tailt ++ c) pos (pos + List.length tailt)).
  { intros pos. unfold tailp, tailt. destruct (nonempty comment_end).
    - replace (pos + List.length (comment_end ++ [NL]))
        with (pos + List.length comment_end + List.length [NL])
        by (rewrite length_app; lia).
      rewrite <- app_assoc.
      apply ends_close, ends_open. apply ends_lits.
      apply (ends_greedy [NL]); [reflexivity|now apply Hc|].
      apply ends_close. apply ends_nil.
    - apply ends_close. cbn [app List.length]. rewrite Nat.add_0_r. apply ends_nil. }
  repeat rewrite <- app_assoc.
  change ([Open 1] ++ ?p) with (Open 1 :: p).
  apply ends_open. apply ends_lits. apply ends_lits.
  change ([LazyAny] ++ ?p) with (LazyAny :: p).
  apply ends_lazy.
  - apply ends_lits. apply ends_lits.
    change ([LazyAny; Lit NL] ++ tailp) with (LazyAny :: Lit NL :: tailp).
    change ([SPACE] ++ name ++ [NL] ++ tailt ++ c)
      with (([SPACE] ++ name) ++ NL :: tailt ++ c).
    apply ends_lazy.
    + apply ends_lit.
      match goal with
      | |- ends tailp (tailt ++ c) ?pos _ =>
          replace total with (pos + List.length tailt); [apply Htail|]
      end.
      unfold total. repeat rewrite length_app. cbn [List.length]. lia.
    + intros k caps Hk.
      assert (Hin : forall x, In x ([SPACE] ++ name) -> x <> NL).
      { intros x [<-|Hx]; [discriminate|]. intros ->. contradiction. }
      revert Hin Hk. generalize ([SPACE] ++ name) as a. intros a Hin Hk.
      assert (Hsk : exists x rest, skipn k (a ++ NL :: tailt ++ c) = x :: rest /\ x <> NL).
      { revert k Hk. induction a as [|x a IHa]; intros k Hk; [simpl in Hk; lia|].
        destruct k as [|k].
        - exists x, (a ++ NL :: tailt ++ c). split; [reflexivity|].
          apply Hin. now left.
        - cbn [app skipn]. apply IHa; [|simpl in Hk; lia].
          intros y Hy. apply Hin. now right. }
      destruct Hsk as (x & rest & -> & Hx).
      cbn [match_here]. apply N.eqb_neq in Hx. now rewrite Hx.
  - intros k caps Hk.
    rewrite (app_assoc (map Lit comment_middle)), <- map_app.
    apply lits_fail.
    replace (body ++ comment_middle ++ lit " File:" ++ [SPACE] ++ name ++ [NL]
               ++ tailt ++ c)
      with (body ++ (comment_middle ++ lit " File:")
              ++ ([SPACE] ++ name ++ [NL] ++ tailt ++ c))
      by (now repeat rewrite <- app_assoc).
    now apply only_at_end_spec.
Qed.

Lemma search_at_start (p : pattern) (s : str) (e : nat) :
  ends p s 0 e -> exists caps, search p s = Some {| m_start := 0; m_end := e; m_groups := caps |}.
Proof.
  intros H. destruct (H []) as (caps & Hm). exists caps.
  unfold search. destruct s; simpl; simpl in Hm; rewrite Hm; reflexivity.
Qed.

(** Idempotence, where it holds.  Take a block without backslash, for a file
    name without line feed, whose only [File:] line is its last; and a
    content that, when the style has an end marker, does not start with
    white space.  Then inserting the block into the content that already
    starts with it changes nothing; so a file without a map has, after two
    insertions, the content it had after one. *)
Theorem second_insertion_changes_nothing
  (comment_start comment_middle comment_end tree name c : str) :
  ~ In BACKSLASH (updated_map (comment_start, comment_middle, comment_end) tree name) ->
  ~ In NL name ->
  only_at_end (comment_middle ++ lit " File:") (block_body comment_middle tree) = true ->
  (nonempty comment_end = true -> no_leading_space c = true) ->
  updated_content (comment_start, comment_middle, comment_end) tree name
    (updated_map (comment_start, comment_middle, comment_end) tree name ++ c)
  = Ok (updated_map (comment_start, comment_middle, comment_end) tree name ++ c) /\
  (search (map_pattern (comment_start, comment_middle, comment_end)) c = None ->
   updated_content (comment_start, comment_middle, comment_end) tree name c
   = Ok (updated_map (comment_start, comment_middle, comment_end) tree name ++ c)).
Proof.
  intros Hno Hname Hkey Hc. split.
  - destruct (search_at_start
                (@block_match_ends comment_start comment_middle comment_end tree name c
                   Hname Hkey Hc)) as (caps & Hs).
    unfold updated_content. rewrite Hs. unfold subn1, parse_template.
    rewrite parse_literal by exact Hno. cbn [bind]. rewrite Hs.
    cbn [bind Nat.eqb m_start m_end firstn app]. rewrite expand_literal.
    rewrite skipn_app, skipn_all, Nat.sub_diag. reflexivity.
  - intros Hs. unfold updated_content. now rewrite Hs.
Qed.

Lemma second_insertion_changes_nothing_witness :
  let tree := lit "r/" ++ [NL] ++ CORNER ++ lit "a.md" in
  let block := updated_map (lit "<!--", lit " *", lit "-->") tree (lit "a.md") in
  ~ In BACKSLASH block /\
  ~ In NL (lit "a.md") /\
  only_at_end (lit " *" ++ lit " File:") (block_body (lit " *") tree) = true /\
  (nonempty (lit "-->") = true -> no_leading_space (lit "# Title") = true) /\
  (updated_content (lit "<!--", lit " *", lit "-->") tree (lit "a.md")
     (block ++ lit "# Title")
   = Ok (block ++ lit "# Title") /\
   (search (map_pattern (lit "<!--", lit " *", lit "-->")) (lit "# Title") = None ->
    updated_content (lit "<!--", lit " *", lit "-->") tree (lit "a.md") (lit "# Title")
    = Ok (block ++ lit "# Title"))).
Proof.
  intros tree block.
  assert (H1 : ~ In BACKSLASH block) by (vm_compute; intuition discriminate).
  assert (H2 : ~ In NL (lit "a.md")) by (vm_compute; intuition discriminate).
  assert (H3 : only_at_end (lit " *" ++ lit " File:") (block_body (lit " *") tree) = true)
    by (vm_compute; reflexivity).
  assert (H4 : nonempty (lit "-->") = true -> no_leading_space (lit "# Title") = true)
    by (intros _; reflexivity).
  split; [exact H1|]. split; [exact H2|]. split; [exact H3|]. split; [exact H4|].
  exact (@second_insertion_changes_nothing (lit "<!--") (lit " *") (lit "-->") tree
           (lit "a.md") (lit "# Title") H1 H2 H3 H4).
Defined.

(** ** What the exclusion patterns match *)

Lemma translate_star (pat : str) :
  Fnmatch.translate (42%N :: pat) = Fnmatch.GStar :: Fnmatch.translate pat.
Proof. reflexivity. Qed.

Lemma translate_char (c : char) (pat : str) :
  c <> 42%N -> c <> 63%N -> c <> 91%N ->
  Fnmatch.translate (c :: pat) = Fnmatch.GChar c :: Fnmatch.translate pat.
Proof.
  intros H1 H2 H3. cbn [Fnmatch.translate].
  apply N.eqb_neq in H1, H2, H3. now rewrite H1, H2, H3.
Qed.

Lemma gmatch_star_unfold (g : list Fnmatch.gitem) (s : str) :
  Fnmatch.gmatch (Fnmatch.GStar :: g) s
  = Fnmatch.gmatch g s
    || match s with
       | [] => false
       | _ :: s' => Fnmatch.gmatch (Fnmatch.GStar :: g) s'
       end.
Proof. destruct s; reflexivity. Qed.

Lemma gmatch_star (g : list Fnmatch.gitem) (s : str) :
  Fnmatch.gmatch (Fnmatch.GStar :: g) s = true <->
  exists a s', s = a ++ s' /\ Fnmatch.gmatch g s' = true.
Proof.
  split.
  - induction s as [|x s IH]; rewrite gmatch_star_unfold; intros H;
      apply orb_prop in H as [H|H].
    + now exists [], [].
    + discriminate.
    + now exists [], (x :: s).
    + apply IH in H as (a & s' & -> & H). now exists (x :: a), s'.
  - intros (a & s' & -> & H). induction a as [|x a IH]; rewrite gmatch_star_unfold.
    + cbn [app]. now rewrite H.
    + cbn [app]. rewrite IH. apply orb_true_r.
Qed.

Lemma star_pattern_cons (c : char) (pat : str) :
  star_pattern (c :: pat) = true -> c <> 63%N /\ c <> 91%N /\ star_pattern pat = true.
Proof.
  unfold star_pattern. cbn [forallb]. intros H.
  apply andb_prop in H as [H Hp]. apply andb_prop in H as [H1 H2].
  apply Bool.negb_true_iff in H1, H2. apply N.eqb_neq in H1, H2. auto.
Qed.

Lemma fnmatch_Globs (pat : str) :
  star_pattern pat = true ->
  forall name, Fnmatch.fnmatch name pat = true <-> Globs pat name.
Proof.
  unfold Fnmatch.fnmatch.
  induction pat as [|c pat IH]; intros Hp name.
  - cbn. split.
    + destruct name; [constructor|discriminate].
    + inversion 1. reflexivity.
  - apply star_pattern_cons in Hp as (H63 & H91 & Hp).
    destruct (N.eqb c 42) eqn:E.
    + apply N.eqb_eq in E. subst c. rewrite translate_star, gmatch_star. split.
      * intros (a & s' & -> & H). constructor. now apply IH.
      * inversion 1 as [|pat' a s Hg|]; subst; [|congruence].
        exists a, s. split; [reflexivity|]. now apply IH.
    + apply N.eqb_neq in E. rewrite translate_char by assumption.
      cbn [Fnmatch.gmatch]. split.
      * destruct name as [|x name]; [discriminate|]. intros H.
        apply andb_prop in H as [Hx H]. apply N.eqb_eq in Hx. subst x.
        constructor; [exact E|]. now apply IH.
      * inversion 1 as [|pat' a s Hg|c' pat' s Hc Hg]; subst; [congruence|].
        rewrite N.eqb_refl. cbn [andb]. now apply IH.
Qed.

Lemma Globs_literal (pat name : str) :
  ~ In 42%N pat -> (Globs pat name <-> name = pat).
Proof.
  revert name. induction pat as [|c pat IH]; intros name Hno.
  - split; [now inversion 1|intros ->; constructor].
  - split.
    + inversion 1 as [|pat' a s Hg|c' pat' s Hc Hg]; subst.
      * exfalso. apply Hno. now left.
      * f_equal. apply IH; [|exact Hg]. intros Hin. apply Hno. now right.
    + intros ->. constructor.
      * intros ->. apply Hno. now left.
      * apply IH; [|reflexivity]. intros Hin. apply Hno. now right.
Qed.

(** The patterns of the program are made of stars and plain characters.  For
    such a pattern [fnmatch] accepts exactly the names the pattern stands
    for, a star for any text; so a pattern without star accepts itself
    only, and a star followed by plain characters accepts the names that end
    with them. *)
Theorem star_patterns_match (pat : str) :
  star_pattern pat = true ->
  (forall name, Fnmatch.fnmatch name pat = true <-> Globs pat name) /\
  (~ In 42%N pat ->
   (forall name, Fnmatch.fnmatch name pat = true <-> name = pat) /\
   (forall name, Fnmatch.fnmatch name (42%N :: pat) = true <->
                 exists a, name = a ++ pat)).
Proof.
  intros Hp. split; [now apply fnmatch_Globs|].
  intros Hno. split.
  - intros name. rewrite (@fnmatch_Globs pat Hp name). now apply Globs_literal.
  - intros name.
    assert (Hp' : star_pattern (42%N :: pat) = true).
    { unfold star_pattern in *. cbn [forallb]. now rewrite Hp. }
    rewrite (@fnmatch_Globs (42%N :: pat) Hp' name). split.
    + inversion 1 as [|pat' a s Hg|]; subst; [|congruence].
      exists a. f_equal. now apply Globs_literal.
    + intros (a & ->). constructor. now apply Globs_literal.
Qed.

Lemma star_patterns_match_witness :
  star_pattern (lit ".pyc") = true /\
  ((forall name, Fnmatch.fnmatch name (lit ".pyc") = true <-> Globs (lit ".pyc") name) /\
   (~ In 42%N (lit ".pyc") ->
    (forall name, Fnmatch.fnmatch name (lit ".pyc") = true <-> name = lit ".pyc") /\
    (forall name, Fnmatch.fnmatch name (42%N :: lit ".pyc") = true <->
                  exists a, name = a ++ lit ".pyc"))).
Proof.
  assert (H : star_pattern (lit ".pyc") = true) by reflexivity.
  split; [exact H|]. exact (@star_patterns_match (lit ".pyc") H).
Defined.

Lemma excluded_by_Globs (patterns : list str) (name : str) :
  forallb (fun pattern => star_pattern (lower pattern)) patterns = true ->
  (excluded_by patterns name <->
   exists pattern, In pattern patterns /\ Globs (lower pattern) (lower name)).
Proof.
  intros Hall. rewrite forallb_forall in Hall. unfold excluded_by.
  split; intros (pattern & Hin & H); exists pattern; (split; [exact Hin|]);
    now apply (@fnmatch_Globs (lower pattern) (Hall pattern Hin) (lower name)).
Qed.

(** Every pattern of the two exclusion sets is made of stars and plain
    characters, so a name is excluded by a set exactly when, lowercased, it
    is one of the names a lowercased pattern of the set stands for. *)
Theorem exclusion_by_tables (name : str) :
  (excluded_by EXCLUDE_DIRS name <->
   exists pattern, In pattern EXCLUDE_DIRS /\ Globs (lower pattern) (lower name)) /\
  (excluded_by EXCLUDE_FILES name <->
   exists pattern, In pattern EXCLUDE_FILES /\ Globs (lower pattern) (lower name)).
Proof.
  split; apply excluded_by_Globs; vm_compute; reflexivity.
Qed.

(** ** The style of a file *)

Lemma rfind_dot_last (stem ext : str) :
  ~ In DOT ext -> rfind_dot (stem ++ DOT :: ext) = Some (List.length stem).
Proof.
  intros Hno. induction stem as [|x stem IH].
  - cbn [app rfind_dot List.length].
    rewrite rfind_dot_none by (intros c Hc ->; contradiction).
    now rewrite N.eqb_refl.
  - cbn [app rfind_dot List.length]. now rewrite IH.
Qed.

Lemma lstrip_dots_plain (ext : str) : ~ In DOT ext -> lstrip_dots ext = ext.
Proof.
  destruct ext as [|c ext]; [reflexivity|]. intros Hno. simpl.
  destruct (N.eqb c DOT) eqn:E; [|reflexivity].
  apply N.eqb_eq in E. exfalso. apply Hno. now left.
Qed.

(** The style of a file is chosen by what follows the last dot of its name:
    for a name [stem.ext], with a stem and an extension that are not empty,
    it is the entry of the table for [ext] as it is written (upper and lower
    case are not the same), and the default when there is none; a name
    without dot gets the default. *)
Theorem style_of_extension (p : path) :
  (forall stem ext,
      Path.name p = stem ++ [DOT] ++ ext -> stem <> [] -> ext <> [] -> ~ In DOT ext ->
      get_comment_style (Path.suffix p)
      = match styles_get ext COMMENT_STYLES with
        | Some s => s
        | None => DEFAULT_COMMENT_STYLE
        end) /\
  (~ In DOT (Path.name p) ->
   get_comment_style (Path.suffix p) = DEFAULT_COMMENT_STYLE).
Proof.
  split.
  - intros stem ext Hn Hstem Hext Hno. unfold Path.suffix. rewrite Hn.
    cbn [app]. rewrite rfind_dot_last by exact Hno.
    assert (Hlt : Nat.ltb 0 (List.length stem)
                  && Nat.ltb (List.length stem)
                       (List.length (stem ++ DOT :: ext) - 1) = true).
    { apply andb_true_intro. split; apply Nat.ltb_lt.
      - destruct stem; [contradiction|simpl; lia].
      - rewrite length_app. destruct ext; [contradiction|simpl; lia]. }
    rewrite Hlt, skipn_app, skipn_all, Nat.sub_diag. cbn [app skipn].
    unfold get_comment_style. cbn [lstrip_dots]. rewrite N.eqb_refl.
    now rewrite lstrip_dots_plain.
  - intros Hno. unfold Path.suffix.
    rewrite rfind_dot_none by (intros c Hc ->; contradiction). reflexivity.
Qed.
